(** * update_reading_records.py: cell text normaliser and sheet recolouring

    A shallow embedding of [clean_and_format_text] and [update_excel_sheet]
    from [My Classroom/feelings/update_reading_records.py], with the
    properties of the parsing heuristic and of the sheet traversal.

    - Python [str] values are lists of characters.  The development covers
      the ASCII fragment of [str]: on it the Unicode predicates behind
      [str.strip], [str.split], [\s] and [\d] reduce to the tables below and
      the case mappings of [str.capitalize] stay inside the alphabet.
    - The two regular expressions are run by backtracking, piece by piece,
      and [re.finditer] scans the string from left to right.
    - Code that can raise returns a [result]; loops thread the state.
    - The workbook is a map from sheet names to cells, with a store of fill
      objects that cells and the legend map refer to. *)

From Stdlib Require Import Ascii String ZArith DecimalString.
From stdpp Require Import base list gmap strings.

Open Scope nat_scope.

(** ** Characters and strings *)

Definition str := list ascii.

(** A string literal as a [str]. *)
Definition lit (s : string) : str := list_ascii_of_string s.

Definition ord (c : ascii) : nat := nat_of_ascii c.
Definition chr (n : nat) : ascii := ascii_of_nat n.

Definition in_range (lo hi : nat) (c : ascii) : bool :=
  (lo <=? ord c) && (ord c <=? hi).

(** [str.isspace] and the regex class [\s]: TAB, LF, VT, FF, CR, the four
    information separators FS, GS, RS, US, and SPACE. *)
Definition isspace (c : ascii) : bool :=
  in_range 9 13 c || in_range 28 31 c || (ord c =? 32).

(** The regex class [\d]. *)
Definition isdigit (c : ascii) : bool := in_range 48 57 c.

Definition isupper (c : ascii) : bool := in_range 65 90 c.
Definition islower (c : ascii) : bool := in_range 97 122 c.

Definition upper_char (c : ascii) : ascii :=
  if islower c then chr (ord c - 32) else c.
Definition lower_char (c : ascii) : ascii :=
  if isupper c then chr (ord c + 32) else c.

Definition newline : ascii := chr 10.
Definition plus : ascii := chr 43.
Definition space : ascii := chr 32.

Definition char_eqb (a b : ascii) : bool := bool_decide (a = b).

(** ** The [str] methods the source calls *)

Fixpoint lstrip (s : str) : str :=
  match s with
  | c :: s' => if isspace c then lstrip s' else s
  | [] => []
  end.

Definition rstrip (s : str) : str := reverse (lstrip (reverse s)).

(** [s.strip()] *)
Definition strip (s : str) : str := rstrip (lstrip s).

(** [s.split()] with no separator: the maximal runs of non-whitespace
    characters, in order.  [w] is the word being read. *)
Fixpoint split_acc (w : str) (s : str) : list str :=
  match s with
  | [] => match w with [] => [] | _ => [w] end
  | c :: s' =>
      if isspace c
      then match w with [] => split_acc [] s' | _ => w :: split_acc [] s' end
      else split_acc (w ++ [c]) s'
  end.

Definition split (s : str) : list str := split_acc [] s.

(** [s.capitalize()]: first character upper-cased, the others lower-cased. *)
Definition capitalize (s : str) : str :=
  match s with
  | [] => []
  | c :: s' => upper_char c :: (lower_char <$> s')
  end.

(** [sep.join(ws)] *)
Fixpoint join (sep : str) (ws : list str) : str :=
  match ws with
  | [] => []
  | [w] => w
  | w :: ws' => w ++ sep ++ join sep ws'
  end.

(** [string.capwords(s)]: [' '.join(map(str.capitalize, s.split()))]. *)
Definition capwords (s : str) : str :=
  join [space] (capitalize <$> split s).

(** ** Regular expressions

    A pattern is run by backtracking.  Each piece of a pattern maps the text
    still to be read to the list of ways it can match there, as pairs
    (consumed, rest), in the order in which the engine tries them; the first
    way that lets the rest of the pattern succeed is the match. *)

Definition ways := list (str * str).

(** [[\s\n]+], greedy: the longest run first, then the shorter ones. *)
Fixpoint ws_plus (r : str) : ways :=
  match r with
  | c :: r' =>
      if isspace c || char_eqb c newline
      then ((λ p, (c :: p.1, p.2)) <$> ws_plus r') ++ [([c], r')]
      else []
  | [] => []
  end.

(** [\d] *)
Definition digit (r : str) : ways :=
  match r with
  | c :: r' => if isdigit c then [([c], r')] else []
  | [] => []
  end.

(** [\d{1,2}], greedy: two digits first, then one. *)
Definition digit_1_2 (r : str) : ways :=
  p1 ← digit r;
  (p2 ← digit p1.2; [(p1.1 ++ p2.1, p2.2)]) ++ [p1].

(** [\+?], greedy: with the sign first, then without. *)
Definition opt_plus (r : str) : ways :=
  match r with
  | c :: r' => if char_eqb c plus then [([c], r'); ([], r)] else [([], r)]
  | [] => [([], r)]
  end.

(** The group [(\d{1,2}\+?)]. *)
Definition level_group (r : str) : ways :=
  d ← digit_1_2 r;
  p ← opt_plus d.2;
  [(d.1 ++ p.1, p.2)].

(** [$] without MULTILINE: at the end of the string, or just before a
    newline that ends the string. *)
Definition at_dollar (r : str) : bool :=
  match r with
  | [] => true
  | [c] => char_eqb c newline
  | _ => false
  end.

(** The lookahead [(?=\s|$|\n)]. *)
Definition lookahead (r : str) : bool :=
  match r with
  | c :: _ => isspace c || at_dollar r || char_eqb c newline
  | [] => at_dollar r
  end.

(** A compiled pattern, run at one position: the length of the match and
    the text of group 1. *)
Definition pattern := str → option (nat * str).

(** [[\s\n]+(\d{1,2}\+?)(?=\s|$|\n)] *)
Definition level_after_space : pattern := λ r,
  head (w ← ws_plus r;
        g ← level_group w.2;
        if lookahead g.2 then [(length w.1 + length g.1, g.1)] else []).

(** [(\d{1,2}\+?)$] *)
Definition level_at_end : pattern := λ r,
  head (g ← level_group r;
        if at_dollar g.2 then [(length g.1, g.1)] else []).

Record re_match := Match { m_start : nat; m_end : nat; m_group1 : str }.

(** [re.finditer]: the matches from left to right, the search resuming where
    the last match ended.  [i] is the position of [r] in the string and
    [skip] the number of characters of the last match still to pass. *)
Fixpoint scan (pat : pattern) (r : str) (i skip : nat) : list re_match :=
  match skip with
  | S k =>
      match r with
      | [] => []
      | _ :: r' => scan pat r' (S i) k
      end
  | 0 =>
      match pat r with
      | Some (n, g) =>
          Match i (i + n) g ::
          match r with
          | [] => []
          | _ :: r' => scan pat r' (S i) (n - 1)
          end
      | None =>
          match r with
          | [] => []
          | _ :: r' => scan pat r' (S i) 0
          end
      end
  end.

Definition finditer (pat : pattern) (s : str) : list re_match := scan pat s 0 0.

(** ** Values and exceptions *)

(** What a cell holds, as far as the program looks at it: nothing, a text
    or an integer. *)
Inductive pyval :=
  | VNone
  | VStr (s : str)
  | VInt (n : Z).

(** Truth value of a [pyval]. *)
Definition truthy (v : pyval) : bool :=
  match v with
  | VNone => false
  | VStr s => negb (bool_decide (s = []))
  | VInt n => negb (n =? 0)%Z
  end.

(** [str(v)] *)
Definition py_str (v : pyval) : str :=
  match v with
  | VNone => lit "None"
  | VStr s => s
  | VInt n => lit (NilZero.string_of_int (Z.to_int n))
  end.

Inductive pyexn := IndexError | KeyError.

Inductive result (A : Type) :=
  | Ok (a : A)
  | Raise (e : pyexn).
Arguments Ok {A} a.
Arguments Raise {A} e.

Global Instance result_ret : MRet result := λ A a, Ok a.
Global Instance result_bind : MBind result := λ A B f m,
  match m with
  | Ok a => f a
  | Raise e => Raise e
  end.

(** [l[-1]] *)
Definition index_last {A} (l : list A) : result A :=
  match last l with
  | Some x => Ok x
  | None => Raise IndexError
  end.

Definition nonempty {A} (l : list A) : bool :=
  match l with [] => false | _ => true end.

(** ** [clean_and_format_text] *)

(** The matches the function works with: those of the first pattern, or
    those of the second when the first finds nothing. *)
Definition level_matches (val : str) : list re_match :=
  let matches := finditer level_after_space val in
  if negb (nonempty matches) then finditer level_at_end val else matches.

Definition clean_and_format_text (text : pyval)
  : result (option str * option str) :=
  if negb (truthy text) then Ok (None, None) else
  let val := strip (py_str text) in
  let matches := level_matches val in
  if nonempty matches then
    match index_last matches with
    | Raise e => Raise e
    | Ok m =>
        let level_str := m_group1 m in
        let name_part := strip (take (m_start m) val) in
        let suffix_part := strip (drop (m_end m) val) in
        let name_part := capwords name_part in
        let new_val := name_part ++ [newline] ++ level_str in
        let new_val :=
          if nonempty suffix_part
          then new_val ++ [newline] ++ suffix_part
          else new_val in
        Ok (Some new_val, Some level_str)
    end
  else Ok (Some val, None).

(** ** The workbook

    The spreadsheet library is used through cells with a value, a fill and
    an alignment.  A fill is an object: cells and the legend map hold
    references to fills, and the fills themselves live in a store, so that
    two holders of one reference share one object. *)

Record fill_style := Fill {
  pattern_type : string;
  fg_color : string;
  bg_color : string
}.

Record alignment_style := Alignment {
  horizontal : option string;
  vertical : option string;
  wrap_text : option bool
}.

Record cell := Cell {
  value : pyval;
  fill : nat;
  alignment : alignment_style
}.

(** Assignments to the attributes of a cell. *)
Definition set_value (v : pyval) (c : cell) : cell :=
  Cell v (fill c) (alignment c).
Definition set_fill (ref : nat) (c : cell) : cell :=
  Cell (value c) ref (alignment c).
Definition set_alignment (a : alignment_style) (c : cell) : cell :=
  Cell (value c) (fill c) a.

(** The fill of a cell that was never styled: the first entry of the
    store. *)
Definition default_fill_ref : nat := 0.
Definition default_fill : fill_style := Fill "" "00000000" "00000000".

(** The cell that [ws.cell] creates where there is none. *)
Definition new_cell : cell :=
  Cell VNone default_fill_ref (Alignment None None None).

(** The cells of a worksheet, by (row, column), and the fills of its
    workbook. *)
Record sheet_state := State {
  st_cells : gmap (nat * nat) cell;
  st_styles : list fill_style
}.

Record workbook := Workbook {
  sheets : gmap string (gmap (nat * nat) cell);
  styles : list fill_style
}.

(** The cell at a position, as [ws.cell] would give it. *)
Definition get_cell (ws : gmap (nat * nat) cell) (p : nat * nat) : cell :=
  default new_cell (ws !! p).

(** [ws.cell(row=row, column=col)]: the cell there, created if missing. *)
Definition ws_cell (ws : gmap (nat * nat) cell) (row col : nat)
  : cell * gmap (nat * nat) cell :=
  match ws !! (row, col) with
  | Some x => (x, ws)
  | None => (new_cell, <[(row, col) := new_cell]> ws)
  end.

(** [ws.max_column]: the largest column that holds a cell, 1 for a sheet
    without cells. *)
Definition max_column (ws : gmap (nat * nat) cell) : nat :=
  if decide (ws = ∅) then 1
  else max_list ((λ kv, kv.1.2) <$> map_to_list ws).

(** [copy(f)] of a fill: a new object with the same content. *)
Definition copy_fill (store : list fill_style) (ref : nat)
  : nat * list fill_style :=
  (length store, store ++ [default default_fill (store !! ref)]).

(** A [dict] with [str] keys, in insertion order. *)
Definition dict (V : Type) := list (str * V).

Fixpoint dict_get {V} (k : str) (d : dict V) : option V :=
  match d with
  | [] => None
  | (k', v) :: d' => if decide (k = k') then Some v else dict_get k d'
  end.

(** [d[k] = v] *)
Fixpoint dict_set {V} (k : str) (v : V) (d : dict V) : dict V :=
  match d with
  | [] => [(k, v)]
  | (k', v') :: d' =>
      if decide (k = k') then (k, v) :: d' else (k', v') :: dict_set k v d'
  end.

(** [k in d] *)
Definition dict_mem {V} (k : str) (d : dict V) : bool :=
  bool_decide (is_Some (dict_get k d)).

(** [d[k]] *)
Definition dict_index {V} (k : str) (d : dict V) : result V :=
  match dict_get k d with
  | Some v => Ok v
  | None => Raise KeyError
  end.

Definition of_option_str (o : option str) : pyval :=
  match o with
  | Some s => VStr s
  | None => VNone
  end.

(** ** [update_excel_sheet] *)

Definition sheet_name : string := "2B Liben 2.0".
Definition output_filename : string := "Liben_Kbely_Reading_records_Updated.xlsx".

(** One round of the loop over the legend rows, lines 80 to 88. *)
Definition legend_row (acc : gmap (nat * nat) cell * dict nat) (row : nat)
  : gmap (nat * nat) cell * dict nat :=
  let '(ws, level_color_map) := acc in
  let '(c, ws) := ws_cell ws row 3 in
  let level_val :=
    match value c with
    | VNone => VNone
    | v => VStr (strip (py_str v))
    end in
  if truthy level_val
  then (ws, dict_set (py_str level_val) (fill c) level_color_map)
  else (ws, level_color_map).

(** Step 1: the legend in C57:C77. *)
Definition read_legend (ws : gmap (nat * nat) cell)
  : gmap (nat * nat) cell * dict nat :=
  foldl legend_row (ws, []) (seq 57 21).

(** The body of the inner loop, lines 103 to 116. *)
Definition process_cell (level_color_map : dict nat)
    (row_idx : nat) (st : sheet_state) (col_idx : nat) : result sheet_state :=
  let '(c, ws) := ws_cell (st_cells st) row_idx col_idx in
  if truthy (value c) then
    let original_text := value c in
    '(new_text, extracted_level) ← clean_and_format_text original_text;
    let c := set_value (of_option_str new_text) c in
    let c := set_alignment
               (Alignment (Some "center") (Some "center") (Some true)) c in
    let level := of_option_str extracted_level in
    if truthy level && dict_mem (py_str level) level_color_map then
      ref ← dict_index (py_str level) level_color_map;
      let '(new_ref, store) := copy_fill (st_styles st) ref in
      let c := set_fill new_ref c in
      Ok (State (<[(row_idx, col_idx) := c]> ws) store)
    else Ok (State (<[(row_idx, col_idx) := c]> ws) (st_styles st))
  else Ok (State ws (st_styles st)).

(** A [for] loop whose body may raise. *)
Fixpoint for_each {S A} (body : S → A → result S) (st : S) (l : list A)
  : result S :=
  match l with
  | [] => Ok st
  | x :: l' => st' ← body st x; for_each body st' l'
  end.

(** One row of the table: the columns from F to the last one. *)
Definition process_row (level_color_map : dict nat)
    (st : sheet_state) (row_idx : nat) : result sheet_state :=
  let start_col_idx := 6 in
  for_each (process_cell level_color_map row_idx) st
           (seq start_col_idx (max_column (st_cells st) + 1 - start_col_idx)).

(** Step 2: the rows 2 to 56. *)
Definition process_table (level_color_map : dict nat) (st : sheet_state)
  : result sheet_state :=
  for_each (process_row level_color_map) st (seq 2 55).

(** What the program does to the world: lines printed and files saved.  The
    levels of the legend are printed as a Python list, which is kept as the
    list of keys. *)
Inductive event :=
  | Print (line : string)
  | PrintLevels (keys : list str)
  | Save (filename : string) (wb : workbook).

(** [update_excel_sheet(filename)], over the files [fs]; loading a file that
    is not there raises FileNotFoundError, which the function catches. *)
Definition update_excel_sheet (fs : gmap string workbook) (filename : string)
  : result (list event) :=
  let out := [Print ("Loading " +:+ filename +:+ "...")] in
  match fs !! filename with
  | None =>
      Ok (out ++ [Print "Error: File not found. Please ensure the Excel file is in the same folder."])
  | Some wb =>
      match sheets wb !! sheet_name with
      | None =>
          Ok (out ++ [Print ("Error: Sheet '" +:+ sheet_name +:+ "' not found.")])
      | Some ws =>
          let out := out ++ [Print "Reading color legend from C57:C77..."] in
          let '(ws, level_color_map) := read_legend ws in
          let out := out ++ [PrintLevels level_color_map.*1] in
          let out := out ++ [Print "Processing table rows 2-56..."] in
          st ← process_table level_color_map (State ws (styles wb));
          let wb := Workbook (<[sheet_name := st_cells st]> (sheets wb))
                             (st_styles st) in
          let out := out ++ [Save output_filename wb] in
          Ok (out ++ [Print ("Done! Saved updated file as: " +:+ output_filename)])
      end
  end.

(** ** Notions of the specification: the sheet *)

(** The level that [clean_and_format_text] extracts from a cell. *)
Definition extracted_level (x : cell) : option str :=
  match clean_and_format_text (value x) with
  | Ok (_, level) => level
  | Raise _ => None
  end.

(** Nothing happens to the cell at [p] and the fills in the store stay. *)
Definition untouched (p : nat * nat) (s s' : sheet_state) : Prop :=
  get_cell (st_cells s') p = get_cell (st_cells s) p
  ∧ st_styles s `prefix_of` st_styles s'.

(** The cell at [p] goes through the loop body once, and nothing else
    happens to it. *)
Definition once (level_color_map : dict nat) (p : nat * nat)
    (s s' : sheet_state) : Prop :=
  ∃ s1 s2, untouched p s s1
           ∧ process_cell level_color_map p.1 s1 p.2 = Ok s2
           ∧ untouched p s2 s'.

(** ** A small sheet

    Two books in row 2 and a one-line legend: level 8 is red. *)

Definition red_fill : fill_style := Fill "solid" "FFFF0000" "FFFF0000".

Definition example_state : sheet_state :=
  State (list_to_map
           [((2, 6), Cell (VStr (lit "a day in london 8")) 0
                          (Alignment None None None));
            ((2, 7), Cell (VStr (lit "Charlotte's Web")) 0
                          (Alignment None None None));
            ((57, 3), Cell (VInt 8) 1 (Alignment None None None))])
        [default_fill; red_fill].

Definition example_legend : dict nat :=
  (read_legend (st_cells example_state)).2.

Definition example_workbook : workbook :=
  Workbook {["Sheet1" := st_cells example_state]} (st_styles example_state).

(** ** Notions of the specification: levels and tokens *)

(** A level: one or two digits and an optional plus sign. *)
Definition is_level (d : str) : bool :=
  match d with
  | [a] => isdigit a
  | [a; b] => isdigit a && (isdigit b || char_eqb b plus)
  | [a; b; c] => isdigit a && isdigit b && char_eqb c plus
  | _ => false
  end.

(** What may follow a level token: whitespace or the end of the string. *)
Definition at_boundary (r : str) : bool :=
  match r with
  | [] => true
  | c :: _ => isspace c
  end.

(** The level that starts [r] and is followed by a boundary, if any. *)
Definition token_here (r : str) : option str :=
  find (λ d, is_level d && at_boundary (drop (length d) r))
       [take 1 r; take 2 r; take 3 r].

(** The whitespace-delimited numeric tokens of a string, from left to right:
    a token starts right after a whitespace character. *)
Fixpoint level_tokens_from (after_space : bool) (s : str) : list str :=
  match s with
  | [] => []
  | c :: s' =>
      (if after_space then option_list (token_here s) else [])
      ++ level_tokens_from (isspace c) s'
  end.

Definition level_tokens (s : str) : list str := level_tokens_from false s.

(** The same, with the start of the string counted as a delimiter too. *)
Definition numeric_tokens (s : str) : list str := level_tokens_from true s.

(** The string ends with a level. *)
Definition ends_with_level (s : str) : bool :=
  existsb (λ k, is_level (drop (length s - k) s)) [1; 2; 3].

(** The string holds a level token: one after whitespace and before a
    boundary, or one that ends the string. *)
Definition has_level_token (s : str) : bool :=
  nonempty (level_tokens s) || ends_with_level s.




(** ** Auxiliary notions *)

(** The whitespace that starts a string. *)
Fixpoint ws_span (r : str) : str :=
  match r with
  | c :: r' => if isspace c then c :: ws_span r' else []
  | [] => []
  end.

(** A string that neither starts nor ends with whitespace, and is not
    empty. *)
Definition tight (s : str) : Prop :=
  at_boundary s = false ∧ at_boundary (reverse s) = false.

(** A word: a non-empty run of non-whitespace characters. *)
Definition word (w : str) : Prop := w ≠ [] ∧ Forall (λ c, isspace c = false) w.

(** The text assembled from a match. *)
Definition formatted (val : str) (m : re_match) : str :=
  let suffix := strip (drop (m_end m) val) in
  capwords (strip (take (m_start m) val)) ++ [newline] ++ m_group1 m
  ++ (if nonempty suffix then [newline] ++ suffix else []).

(** ** Facts about characters *)

Lemma char_cases (c : ascii) :
  (isdigit c = true ∧ isspace c = false ∧ char_eqb c plus = false
     ∧ char_eqb c newline = false)
  ∨ (isdigit c = false ∧ isspace c = true ∧ char_eqb c plus = false)
  ∨ (isdigit c = false ∧ isspace c = false ∧ char_eqb c plus = true
     ∧ char_eqb c newline = false ∧ c = plus)
  ∨ (isdigit c = false ∧ isspace c = false ∧ char_eqb c plus = false
     ∧ char_eqb c newline = false).
Proof.
  destruct c as [[] [] [] [] [] [] [] []]; vm_compute; tauto.
Qed.

Ltac classify c :=
  let Hd := fresh "Hd" in let Hs := fresh "Hs" in
  let Hp := fresh "Hp" in let Hn := fresh "Hn" in let He := fresh "He" in
  destruct (char_cases c) as
    [(Hd & Hs & Hp & Hn) | [(Hd & Hs & Hp) | [(Hd & Hs & Hp & Hn & He)
                                              | (Hd & Hs & Hp & Hn)]]];
  rewrite ?Hd, ?Hs, ?Hp, ?Hn in *.

Lemma isspace_upper c : isspace (upper_char c) = isspace c.
Proof. destruct c as [[] [] [] [] [] [] [] []]; reflexivity. Qed.

Lemma isspace_lower c : isspace (lower_char c) = isspace c.
Proof. destruct c as [[] [] [] [] [] [] [] []]; reflexivity. Qed.

Lemma upper_char_idemp c : upper_char (upper_char c) = upper_char c.
Proof. destruct c as [[] [] [] [] [] [] [] []]; reflexivity. Qed.

Lemma lower_char_idemp c : lower_char (lower_char c) = lower_char c.
Proof. destruct c as [[] [] [] [] [] [] [] []]; reflexivity. Qed.

Lemma isspace_space : isspace space = true.
Proof. reflexivity. Qed.

(** ** The patterns, without backtracking *)

Lemma ws_span_lstrip r : ws_span r ++ lstrip r = r.
Proof.
  induction r as [|c r IH]; [done|]. cbn. destruct (isspace c); [|done].
  cbn. by rewrite IH.
Qed.

Lemma ws_span_spaces r : Forall (λ c, isspace c = true) (ws_span r).
Proof.
  induction r as [|c r IH]; cbn; [constructor|].
  destruct (isspace c) eqn:E; by constructor.
Qed.

(** Only the longest whitespace run can be followed by a digit. *)
Lemma ws_plus_bind {B} (K : str * str → list B) (r : str) :
  (∀ w c t, isspace c = true → K (w, c :: t) = []) →
  ws_plus r ≫= K =
    if nonempty (ws_span r) then K (ws_span r, lstrip r) else [].
Proof.
  revert K. induction r as [|c r IH]; intros K HK; [done|].
  cbn [ws_plus lstrip ws_span]. classify c; cbn [orb nonempty]; try done.
  rewrite bind_app, list_fmap_bind, bind_singleton.
  rewrite IH by (intros; cbn; by apply HK).
  destruct r as [|c' r]; [done|]. cbn [ws_span lstrip].
  destruct (isspace c') eqn:E; cbn.
  - by rewrite HK, app_nil_r.
  - done.
Qed.

Lemma lookahead_boundary r : lookahead r = at_boundary r.
Proof.
  destruct r as [|c r]; [done|]. cbn [lookahead at_boundary].
  classify c; cbn [orb]; try done.
  all: destruct r; cbn [at_dollar]; by rewrite ?Hn.
Qed.

Ltac use_kinds :=
  repeat match goal with
  | H : isdigit _ = _ |- _ => rewrite H
  | H : isspace _ = _ |- _ => rewrite H
  | H : char_eqb _ _ = _ |- _ => rewrite H
  end.

Ltac crunch :=
  repeat (progress (cbn -[lookahead at_dollar];
                    rewrite ?lookahead_boundary; use_kinds));
  try done.

(** The first way of the level group that is followed by a boundary is the
    token at that place. *)
Lemma level_group_boundary {B} (F : str * str → B) (r : str) :
  head (g ← level_group r; if lookahead g.2 then [F g] else [])
  = (λ d, F (d, drop (length d) r)) <$> token_here r.
Proof.
  unfold level_group, digit_1_2, digit, opt_plus, token_here, is_level.
  destruct r as [|a [|b [|c [|e r]]]]; [done|..].
  - classify a; crunch.
  - classify a; crunch; classify b; crunch.
  - classify a; crunch; classify b; crunch; classify c; crunch.
  - classify a; crunch; classify b; crunch; classify c; crunch;
      classify e; crunch.
Qed.

Lemma level_after_space_eq (r : str) :
  level_after_space r =
    if nonempty (ws_span r)
    then (λ d, (length (ws_span r) + length d, d)) <$> token_here (lstrip r)
    else None.
Proof.
  unfold level_after_space. rewrite ws_plus_bind.
  - destruct (nonempty (ws_span r)); [|done].
    by rewrite (level_group_boundary (λ g, (length (ws_span r) + length g.1, g.1))).
  - intros w c t Hc. cbn. unfold level_group, digit_1_2, digit. cbn.
    classify c; done.
Qed.

(** ** [re.finditer] *)

Section finditer.
Context (pat : pattern).

Lemma scan_skip (x y : str) i :
  scan pat (x ++ y) i (length x) = scan pat y (i + length x) 0.
Proof.
  revert i. induction x as [|c x IH]; intros i; cbn [length app].
  - by rewrite Nat.add_0_r.
  - cbn [scan]. rewrite IH. f_equal. lia.
Qed.

Lemma scan_nil i : pat [] = None → scan pat [] i 0 = [].
Proof. intros H. cbn. by rewrite H. Qed.

(** No match anywhere when the search finds nothing. *)
Lemma scan_empty (r : str) i k :
  scan pat r i 0 = [] → pat (drop k r) = None.
Proof.
  revert i k. induction r as [|c r IH]; intros i k H.
  - rewrite drop_nil. cbn in H. by destruct (pat []) as [[]|].
  - cbn in H. destruct (pat (c :: r)) as [[]|] eqn:E; [done|].
    destruct k; [done|]. cbn. eauto.
Qed.

Lemma scan_match (r : str) i n g :
  pat r = Some (n, g) → 1 ≤ n → n ≤ length r →
  scan pat r i 0 = Match i (i + n) g :: scan pat (drop n r) (i + n) 0.
Proof.
  intros Hp H1 Hn. destruct r as [|c r]; [cbn in Hn; lia|].
  cbn [scan]. rewrite Hp. f_equal.
  destruct n as [|n]; [lia|]. cbn [drop]. cbn in Hn.
  rewrite <- (take_drop n r) at 1.
  replace (S n - 1) with (length (take n r)) by (rewrite length_take; lia).
  rewrite scan_skip. f_equal. rewrite length_take. lia.
Qed.

Lemma scan_miss c (r : str) i :
  pat (c :: r) = None → scan pat (c :: r) i 0 = scan pat r (S i) 0.
Proof. intros H. cbn. by rewrite H. Qed.

Lemma scan_no_match (r : str) i s :
  (∀ k, pat (drop k r) = None) → scan pat r i s = [].
Proof.
  revert i s. induction r as [|c r IH]; intros i s H.
  - destruct s; cbn; [|done]. pose proof (H 0) as H0. cbn in H0.
    by rewrite H0.
  - destruct s; cbn.
    + pose proof (H 0) as H0. cbn in H0. rewrite H0.
      apply IH. intros k. apply (H (S k)).
    + apply IH. intros k. apply (H (S k)).
Qed.

Lemma scan_groups (P : str → Prop) :
  (∀ r n g, pat r = Some (n, g) → P g) →
  ∀ r i s, Forall (λ m, P (m_group1 m)) (scan pat r i s).
Proof.
  intros HP. induction r as [|c r IH]; intros i s.
  - destruct s; cbn; [|constructor].
    destruct (pat []) as [[n g]|] eqn:E; constructor; [by eapply HP|constructor].
  - destruct s; cbn; [|apply IH].
    destruct (pat (c :: r)) as [[n g]|] eqn:E; [|apply IH].
    constructor; [by eapply HP|apply IH].
Qed.

End finditer.

(** ** Level tokens *)

Lemma take_drop_length {A} k (r : list A) :
  take k r ++ drop (length (take k r)) r = r.
Proof.
  revert r. induction k as [|k IH]; intros [|a r]; cbn; [done..|].
  by rewrite IH.
Qed.

Lemma token_here_Some r d :
  token_here r = Some d →
  is_level d = true ∧ r = d ++ drop (length d) r
  ∧ at_boundary (drop (length d) r) = true.
Proof.
  unfold token_here. intros H.
  apply find_some in H as [Hin [H1 H2]%andb_true_iff].
  repeat split; [done| |done].
  cbn in Hin. destruct Hin as [<-|[<-|[<-|[]]]].
  all: by rewrite take_drop_length.
Qed.

Lemma token_here_level d post :
  is_level d = true → at_boundary post = true → token_here (d ++ post) = Some d.
Proof.
  unfold token_here.
  destruct d as [|a [|b [|c [|e d]]]]; [done| | | |done]; intros Hl Hb.
  all: cbn in Hl; destruct post as [|p post]; cbn in Hb.
  - classify a; crunch.
  - classify a; crunch.
  - classify a; try done; classify b; crunch.
  - classify a; try done; classify b; crunch.
  - classify a; try done; classify b; try done; classify c; crunch.
  - classify a; try done; classify b; try done; classify c; crunch.
Qed.

Lemma level_nonspace d :
  is_level d = true → d ≠ [] ∧ Forall (λ c, isspace c = false) d.
Proof.
  destruct d as [|a [|b [|c [|e d]]]]; [done| | | |done]; cbn; intros Hl.
  all: split; [done|].
  - classify a; try done. by repeat constructor.
  - classify a; try done. classify b; try done; by repeat constructor.
  - classify a; try done. classify b; try done. classify c; try done.
    by repeat constructor.
Qed.

Lemma token_here_space c r : isspace c = true → token_here (c :: r) = None.
Proof.
  intros Hc. destruct (token_here (c :: r)) as [d|] eqn:E; [|done].
  apply token_here_Some in E as (Hl & Hr & _).
  apply level_nonspace in Hl as [Hne Hf].
  destruct d as [|a d]; [done|]. injection Hr as -> _.
  apply Forall_cons in Hf as [Hf _]. congruence.
Qed.

Lemma tokens_spaces b (w t : str) :
  Forall (λ c, isspace c = true) w →
  level_tokens_from b (w ++ t) = level_tokens_from (b || nonempty w) t.
Proof.
  revert b. induction w as [|c w IH]; intros b Hw.
  - by rewrite orb_false_r.
  - apply Forall_cons in Hw as [Hc Hw]. cbn [app level_tokens_from].
    rewrite token_here_space, Hc, IH by done. cbn. rewrite orb_true_r.
    by destruct b.
Qed.

Lemma tokens_none t :
  token_here t = None → level_tokens_from true t = level_tokens_from false t.
Proof. destruct t; [done|]. cbn. by intros ->. Qed.

Lemma tokens_level d post :
  is_level d = true → at_boundary post = true →
  level_tokens_from true (d ++ post) = d :: level_tokens_from false post.
Proof.
  intros Hl Hb. pose proof (token_here_level d post Hl Hb) as Ht.
  destruct d as [|a [|b [|c [|e d]]]]; [done| | | |done]; cbn in Hl.
  all: cbn [app level_tokens_from] in *; rewrite Ht; cbn.
  - classify a; done.
  - classify a; try done. classify b; done.
  - classify a; try done. classify b; try done. classify c; done.
Qed.

(** [finditer] with the first pattern finds the level tokens, all of them
    and in order. *)
Lemma scan_tokens (r : str) i :
  m_group1 <$> scan level_after_space r i 0 = level_tokens_from false r.
Proof.
  remember (length r) as n eqn:Hn. assert (Hle : length r ≤ n) by lia.
  clear Hn. revert r i Hle.
  induction n as [|n IH]; intros r i Hle.
  { destruct r; [done|]. cbn in Hle. lia. }
  destruct r as [|c r]; [done|].
  cbn [scan level_tokens_from]. rewrite level_after_space_eq.
  cbn [ws_span lstrip]. destruct (isspace c) eqn:Hc; cbn [nonempty app].
  - pose proof (ws_span_lstrip r) as Hr. pose proof (ws_span_spaces r) as Hw.
    remember (ws_span r) as w eqn:Ew. remember (lstrip r) as t eqn:Et.
    clear Ew Et. subst r.
    destruct (token_here t) as [d|] eqn:Ht; cbn [fmap option_fmap option_map].
    + apply token_here_Some in Ht as (Hl & Hd & Hb).
      remember (drop (length d) t) as post eqn:Ep. clear Ep. subst t.
      rewrite fmap_cons. cbn [m_group1].
      replace (length (c :: w) + length d - 1) with (length (w ++ d))
        by (rewrite length_app; cbn; lia).
      rewrite (assoc_L (++)), scan_skip, IH.
      * rewrite <- (assoc_L (++)), tokens_spaces by done. cbn.
        by rewrite tokens_level.
      * cbn in Hle. rewrite !length_app in Hle. lia.
    + rewrite IH by (cbn in Hle; lia).
      rewrite !tokens_spaces by done. cbn.
      destruct (nonempty w); [done|]. by rewrite tokens_none.
  - apply IH. cbn in Hle. lia.
Qed.

(** ** [strip] *)

Lemma lstrip_tight s : at_boundary s = false → lstrip s = s.
Proof. destruct s as [|c s]; [done|]. cbn. by intros ->. Qed.

Lemma lstrip_spaces (w s : str) :
  Forall (λ c, isspace c = true) w → lstrip (w ++ s) = lstrip s.
Proof.
  induction w as [|c w IH]; [done|]. intros [Hc Hw]%Forall_cons.
  cbn. rewrite Hc. auto.
Qed.

Lemma lstrip_snoc s c : isspace c = false → lstrip (s ++ [c]) = lstrip s ++ [c].
Proof.
  intros Hc. induction s as [|a s IH]; cbn; [by rewrite Hc|].
  by destruct (isspace a).
Qed.

Lemma lstrip_app s t : lstrip s ≠ [] → lstrip (s ++ t) = lstrip s ++ t.
Proof.
  induction s as [|a s IH]; [done|]. cbn. by destruct (isspace a).
Qed.

Lemma lstrip_boundary s : lstrip s = [] ∨ at_boundary (lstrip s) = false.
Proof.
  induction s as [|a s IH]; [by left|]. cbn.
  destruct (isspace a) eqn:E; [done|]. right. cbn. done.
Qed.

Lemma rstrip_tight s : at_boundary (reverse s) = false → rstrip s = s.
Proof.
  intros H. unfold rstrip. rewrite lstrip_tight by done.
  apply reverse_involutive.
Qed.

Lemma rstrip_cons c s : isspace c = false → rstrip (c :: s) = c :: rstrip s.
Proof.
  intros Hc. unfold rstrip.
  by rewrite reverse_cons, lstrip_snoc, reverse_snoc.
Qed.

Lemma rstrip_boundary s :
  rstrip s = [] ∨ at_boundary (reverse (rstrip s)) = false.
Proof.
  unfold rstrip. rewrite reverse_involutive.
  destruct (lstrip_boundary (reverse s)) as [->|H]; auto.
Qed.

Lemma strip_tight s : tight s → strip s = s.
Proof.
  intros [H1 H2]. unfold strip. by rewrite lstrip_tight, rstrip_tight.
Qed.

Lemma rstrip_app_tight s t :
  at_boundary (reverse t) = false → rstrip (s ++ t) = s ++ t.
Proof.
  intros H. apply rstrip_tight. rewrite reverse_app.
  destruct (reverse t); [done|]. done.
Qed.

(** The text around the stripped string is whitespace. *)
Lemma rstrip_split s :
  ∃ w, s = rstrip s ++ w ∧ Forall (λ c, isspace c = true) w.
Proof.
  exists (reverse (ws_span (reverse s))). split.
  - unfold rstrip. rewrite <- reverse_app, ws_span_lstrip.
    by rewrite reverse_involutive.
  - apply Forall_reverse, ws_span_spaces.
Qed.

Lemma lstrip_split s :
  ∃ w, s = w ++ lstrip s ∧ Forall (λ c, isspace c = true) w.
Proof.
  exists (ws_span s). split; [by rewrite ws_span_lstrip|apply ws_span_spaces].
Qed.

Lemma strip_boundary s : strip s = [] ∨ tight (strip s).
Proof.
  unfold strip. destruct (lstrip_boundary s) as [E|Hl]; [rewrite E; by left|].
  destruct (rstrip_boundary (lstrip s)) as [E|Hr]; [by left|]. right.
  split; [|done].
  destruct (lstrip s) as [|c t] eqn:E; [done|]. cbn in Hl.
  by rewrite rstrip_cons.
Qed.

(** ** [split], [capitalize] and [capwords] *)

Lemma split_acc_word (w x s : str) :
  Forall (λ c, isspace c = false) x → split_acc w (x ++ s) = split_acc (w ++ x) s.
Proof.
  revert w. induction x as [|c x IH]; intros w Hx.
  - by rewrite app_nil_r.
  - apply Forall_cons in Hx as [Hc Hx]. cbn. rewrite Hc, IH by done.
    by rewrite <- (assoc_L (++)).
Qed.

Lemma split_acc_words (w s : str) :
  Forall (λ c, isspace c = false) w → Forall word (split_acc w s).
Proof.
  revert w. induction s as [|c s IH]; intros w Hw; cbn.
  - destruct w; [constructor|]. constructor; [done|constructor].
  - destruct (isspace c) eqn:Hc.
    + destruct w; [by apply IH|]. constructor; [done|by apply IH].
    + apply IH. apply Forall_app. by repeat constructor.
Qed.

Lemma split_words s : Forall word (split s).
Proof. by apply split_acc_words. Qed.

Lemma join_cons sep (w w2 : str) ws :
  join sep (w :: w2 :: ws) = w ++ sep ++ join sep (w2 :: ws).
Proof. done. Qed.

Lemma split_join (ws : list str) :
  Forall word ws → split (join [space] ws) = ws.
Proof.
  unfold split. induction ws as [|w [|w2 ws] IH]; intros Hws; [done|..].
  - apply Forall_cons in Hws as [[Hne Hw] _]. cbn [join].
    pose proof (split_acc_word [] w [] Hw) as E. rewrite app_nil_r in E.
    rewrite E. cbn. by destruct w.
  - apply Forall_cons in Hws as [[Hne Hw] Hws]. rewrite join_cons.
    rewrite split_acc_word by done. cbn [app split_acc].
    rewrite isspace_space, IH by done. by destruct w.
Qed.

Lemma capitalize_word w : word w → word (capitalize w).
Proof.
  intros [Hne Hw]. destruct w as [|c w]; [done|]. split; [done|].
  apply Forall_cons in Hw as [Hc Hw]. cbn. constructor.
  - by rewrite isspace_upper.
  - apply Forall_fmap. eapply Forall_impl; [done|]. intros x Hx. cbn.
    by rewrite isspace_lower.
Qed.

Lemma capitalize_idemp w : capitalize (capitalize w) = capitalize w.
Proof.
  destruct w as [|c w]; [done|]. cbn. rewrite upper_char_idemp. f_equal.
  rewrite <- list_fmap_compose. apply list_fmap_ext. intros _ x _. cbn.
  apply lower_char_idemp.
Qed.

Lemma capwords_words s :
  ∃ ws, capwords s = join [space] ws ∧ Forall word ws
        ∧ capitalize <$> ws = ws.
Proof.
  exists (capitalize <$> split s). split; [done|]. split.
  - apply Forall_fmap. eapply Forall_impl; [apply split_words|].
    apply capitalize_word.
  - rewrite <- list_fmap_compose. apply list_fmap_ext. intros _ x _. cbn.
    apply capitalize_idemp.
Qed.

(** [capwords] leaves its own results alone. *)
Lemma capwords_idemp s : capwords (capwords s) = capwords s.
Proof.
  destruct (capwords_words s) as (ws & -> & Hws & Hcap).
  unfold capwords at 1. by rewrite split_join, Hcap.
Qed.

Lemma word_tight w : word w → tight w.
Proof.
  intros [Hne Hw]. split.
  - destruct w as [|c w]; [done|]. by apply Forall_cons in Hw as [Hc _].
  - apply Forall_reverse in Hw. destruct (reverse w) as [|c w'] eqn:E.
    + apply (f_equal reverse) in E. rewrite reverse_involutive in E. done.
    + by apply Forall_cons in Hw as [Hc _].
Qed.

Lemma tight_app s m t : tight s → tight t → tight (s ++ m ++ t).
Proof.
  intros [Hs _] [_ Ht]. split.
  - destruct s; done.
  - rewrite !reverse_app. destruct (reverse t); done.
Qed.

Lemma join_tight (ws : list str) :
  Forall word ws → ws ≠ [] → tight (join [space] ws).
Proof.
  induction ws as [|w [|w2 ws] IH]; intros Hws Hne; [done|..].
  - apply Forall_cons in Hws as [Hw _]. by apply word_tight.
  - apply Forall_cons in Hws as [Hw Hws]. rewrite join_cons.
    apply tight_app; [by apply word_tight|]. by apply IH.
Qed.

Lemma join_no_newline (ws : list str) :
  Forall word ws → newline ∉ join [space] ws.
Proof.
  assert (Hw : ∀ w, word w → newline ∉ w).
  { intros w [_ Hw] Hin. rewrite Forall_forall in Hw.
    specialize (Hw _ Hin). done. }
  induction ws as [|w [|w2 ws] IH]; intros Hws.
  - apply not_elem_of_nil.
  - apply Forall_cons in Hws as [H _]. by apply Hw.
  - apply Forall_cons in Hws as [H Hws]. rewrite join_cons.
    rewrite !not_elem_of_app. split; [by apply Hw|]. split; [|by apply IH].
    intros H'%list_elem_of_singleton. by vm_compute in H'.
Qed.

(** The result of [capwords] is empty or tight, and holds no newline. *)
Lemma capwords_shape s :
  (capwords s = [] ∨ tight (capwords s)) ∧ newline ∉ capwords s.
Proof.
  destruct (capwords_words s) as (ws & -> & Hws & _). split.
  - destruct ws as [|w ws]; [by left|]. right. by apply join_tight.
  - by apply join_no_newline.
Qed.

(** ** Where the matches are *)

Lemma ws_span_app (w t : str) :
  Forall (λ c, isspace c = true) w → at_boundary t = false →
  ws_span (w ++ t) = w.
Proof.
  intros Hw Ht. induction Hw as [|c w Hc Hw IH]; cbn.
  - destruct t as [|a t]; [done|]. cbn in Ht. cbn. by rewrite Ht.
  - by rewrite Hc, IH.
Qed.

Lemma ws_span_app_l (x y : str) : lstrip x ≠ [] → ws_span (x ++ y) = ws_span x.
Proof.
  induction x as [|a x IH]; [done|]. cbn. destruct (isspace a); [|done].
  intros H. by rewrite IH.
Qed.

Lemma level_boundary d : is_level d = true → at_boundary d = false.
Proof.
  intros [Hne Hd]%level_nonspace. destruct d as [|a d]; [done|].
  by apply Forall_cons in Hd as [Ha _].
Qed.

(** Whitespace and a level that ends the string are a match. *)
Lemma level_after_space_end (w level : str) :
  w ≠ [] → Forall (λ c, isspace c = true) w → is_level level = true →
  level_after_space (w ++ level) = Some (length w + length level, level).
Proof.
  intros Hne Hw Hl. rewrite level_after_space_eq.
  rewrite ws_span_app, lstrip_spaces, lstrip_tight
    by auto using level_boundary.
  destruct w; [done|]. cbn [nonempty].
  pose proof (token_here_level level [] Hl eq_refl) as Ht.
  rewrite app_nil_r in Ht. by rewrite Ht.
Qed.

Lemma nonspace_prefix (d post x y : str) c :
  d ++ post = x ++ c :: y → isspace c = true →
  Forall (λ c, isspace c = false) d → length d ≤ length x.
Proof.
  revert x. induction d as [|a d IH]; intros x E Hc Hd; [cbn; lia|].
  apply Forall_cons in Hd as [Ha Hd].
  destruct x as [|b x]; cbn in E; injection E as -> E.
  - congruence.
  - cbn. apply IH in E; [lia|done..].
Qed.

Lemma ends_nonspace_lstrip x : at_boundary (reverse x) = false → lstrip x ≠ [].
Proof.
  intros H E. pose proof (ws_span_lstrip x) as Hx. rewrite E, app_nil_r in Hx.
  pose proof (ws_span_spaces x) as Hw. rewrite Hx in Hw.
  apply Forall_reverse in Hw. destruct (reverse x) as [|c t]; [done|].
  apply Forall_cons in Hw as [Hc _]. cbn in H. congruence.
Qed.

(** A match that starts in a text ending with a non-space character, before
    whitespace, ends inside that text. *)
Lemma level_after_space_within (x y : str) c n g :
  at_boundary (reverse x) = false → isspace c = true →
  level_after_space (x ++ c :: y) = Some (n, g) →
  1 ≤ n ∧ n ≤ length x.
Proof.
  intros Hx Hc. rewrite level_after_space_eq.
  pose proof (ends_nonspace_lstrip x Hx) as Hne.
  rewrite ws_span_app_l, lstrip_app by done.
  destruct (ws_span x) as [|a w] eqn:Ew; [done|]. cbn [nonempty].
  destruct (token_here _) as [d|] eqn:Ht; [|done]. intros [= <- <-].
  apply token_here_Some in Ht as (Hl & Hd & _).
  apply level_nonspace in Hl as [_ Hl].
  symmetry in Hd. eapply nonspace_prefix in Hd; [|done..].
  pose proof (ws_span_lstrip x) as E. apply (f_equal length) in E.
  rewrite length_app, Ew in E. cbn in *. lia.
Qed.

Lemma ends_nonspace_drop (x : str) n :
  x = [] ∨ at_boundary (reverse x) = false →
  drop n x = [] ∨ at_boundary (reverse (drop n x)) = false.
Proof.
  intros [->|H]; [left; by rewrite drop_nil|].
  destruct (decide (length x ≤ n)) as [Hle|Hgt].
  - left. by apply drop_ge.
  - right. rewrite reverse_drop. destruct (reverse x) as [|a t]; [done|].
    destruct (length x - n) as [|k] eqn:E; [lia|]. done.
Qed.

(** In a text that ends with whitespace and a level, after something that
    does not end with whitespace, the last match is that level. *)
Lemma scan_last_level (x w level : str) i :
  x = [] ∨ at_boundary (reverse x) = false →
  w ≠ [] → Forall (λ c, isspace c = true) w → is_level level = true →
  last (scan level_after_space (x ++ w ++ level) i 0)
  = Some (Match (i + length x) (i + length x + length w + length level) level).
Proof.
  intros Hx Hne Hw Hl.
  remember (length x) as n eqn:Hn. assert (Hle : length x ≤ n) by lia.
  rewrite Hn. clear Hn. revert x i Hx Hle.
  induction n as [|n IH]; intros x i Hx Hle.
  - destruct x; [|cbn in Hle; lia]. cbn [app length].
    rewrite (scan_match _ _ _ _ _ (level_after_space_end w level Hne Hw Hl)).
    + rewrite <- length_app, drop_all, scan_nil by done. cbn.
      rewrite length_app. do 2 f_equal; lia.
    + destruct w; [done|]. cbn. lia.
    + by rewrite length_app.
  - destruct x as [|c x]; [apply IH; [by left|cbn; lia]|].
    destruct Hx as [?|Hx]; [done|].
    destruct w as [|s w]; [done|]. apply Forall_cons in Hw as Hw'.
    destruct Hw' as [Hs Hw'].
    destruct (level_after_space ((c :: x) ++ (s :: w) ++ level))
      as [[m g]|] eqn:E.
    + pose proof E as Hin. apply level_after_space_within in Hin as [H1 H2];
        [|done..].
      rewrite (scan_match _ _ _ _ _ E); [|done|rewrite length_app; lia].
      rewrite drop_app_le by done. rewrite last_cons.
      rewrite IH.
      * do 2 f_equal; rewrite length_drop; cbn [length] in *; lia.
      * apply ends_nonspace_drop. by right.
      * rewrite length_drop. cbn [length] in *. lia.
    + change ((c :: x) ++ (s :: w) ++ level)
        with (c :: (x ++ (s :: w) ++ level)) in *.
      rewrite scan_miss by done. rewrite (IH x (S i)).
      * do 2 f_equal; cbn; lia.
      * apply (ends_nonspace_drop (c :: x) 1). by right.
      * cbn in Hle. lia.
Qed.

(** ** The second pattern *)

Lemma at_dollar_cases r : at_dollar r = true → r = [] ∨ r = [newline].
Proof.
  destruct r as [|c [|c' r]]; [by left| |done]. cbn.
  intros ->%bool_decide_eq_true. by right.
Qed.

Lemma level_at_end_Some r n d :
  level_at_end r = Some (n, d) →
  is_level d = true ∧ n = length d ∧ r = d ++ drop (length d) r
  ∧ at_dollar (drop (length d) r) = true.
Proof.
  unfold level_at_end, level_group, digit_1_2, digit, opt_plus.
  destruct r as [|a [|b [|c r]]]; [done|..].
  all: classify a; crunch; try (classify b; crunch; try (classify c; crunch)).
  all: repeat case_match; cbn -[at_dollar]; try done.
  all: intros [= <- <-]; cbn -[at_dollar]; use_kinds; by repeat split.
Qed.

Lemma level_at_end_level d :
  is_level d = true → level_at_end d = Some (length d, d).
Proof.
  unfold level_at_end, level_group, digit_1_2, digit, opt_plus.
  destruct d as [|a [|b [|c [|e d]]]]; [done| | | |done]; cbn [is_level].
  all: classify a; try done; try (classify b; try done; try (classify c; try done)).
  all: intros _; crunch.
Qed.

Lemma finditer_at_end_level d :
  is_level d = true → finditer level_at_end d = [Match 0 (length d) d].
Proof.
  intros Hl. unfold finditer.
  rewrite (scan_match _ _ _ _ _ (level_at_end_level d Hl)).
  - by rewrite drop_all, scan_nil.
  - apply level_nonspace in Hl as [Hne _]. destruct d; [done|cbn; lia].
  - done.
Qed.

Lemma ends_with_level_suffix (s d : str) :
  is_level d = true → ends_with_level (s ++ d) = true.
Proof.
  intros Hl. unfold ends_with_level.
  assert (Hd : drop (length (s ++ d) - length d) (s ++ d) = d).
  { rewrite length_app, Nat.add_sub. apply drop_app_length. }
  destruct d as [|a [|b [|c [|e d]]]]; [done| | | |done].
  all: cbn [length] in Hd; cbn [existsb]; rewrite Hd, Hl.
  all: by rewrite ?orb_true_r.
Qed.

(** A trimmed string that does not end with a level has no match of the
    second pattern. *)
Lemma level_at_end_none (val : str) k :
  val = [] ∨ tight val → ends_with_level val = false →
  level_at_end (drop k val) = None.
Proof.
  intros Hv He. destruct (level_at_end (drop k val)) as [[n d]|] eqn:E; [|done].
  apply level_at_end_Some in E as (Hl & _ & Hd & Hr). exfalso.
  assert (Hval : val = take k val ++ d ++ drop (length d) (drop k val)).
  { by rewrite <- Hd, take_drop. }
  destruct Hv as [->|[_ Ht]].
  { rewrite drop_nil in Hd. apply level_nonspace in Hl as [Hne _].
    by destruct d. }
  apply at_dollar_cases in Hr as [Hr|Hr]; rewrite Hr in Hval.
  - rewrite app_nil_r in Hval. rewrite Hval, ends_with_level_suffix in He; done.
  - rewrite Hval, !reverse_app in Ht. done.
Qed.

Lemma finditer_no_tokens (val : str) :
  level_tokens val = [] → finditer level_after_space val = [].
Proof.
  intros H. unfold finditer. apply fmap_nil_inv with (f := m_group1).
  by rewrite scan_tokens.
Qed.

(** ** Level tokens of the text and of the trimmed text *)


Lemma token_here_trailing (s w : str) :
  s ≠ [] → Forall (λ c, isspace c = true) w →
  token_here (s ++ w) = token_here s.
Proof.
  intros Hne Hw. unfold token_here.
  destruct s as [|a [|b [|c [|e s]]]]; [done|..].
  all: destruct w as [|p [|q w]];
    rewrite ?app_nil_r; try done;
    repeat match goal with
    | H : Forall _ (_ :: _) |- _ => apply Forall_cons in H as [? H]
    end.
  all: classify a; crunch;
    try (classify b; crunch; try (classify c; crunch; try (classify e; crunch))).
Qed.

Lemma tokens_trailing b (s w : str) :
  Forall (λ c, isspace c = true) w →
  level_tokens_from b (s ++ w) = level_tokens_from b s.
Proof.
  intros Hw. revert b. induction s as [|c s IH]; intros b.
  - cbn [app]. rewrite <- (app_nil_r w), tokens_spaces by done. done.
  - change ((c :: s) ++ w) with (c :: (s ++ w)). cbn [level_tokens_from].
    rewrite IH. change (c :: (s ++ w)) with ((c :: s) ++ w).
    by rewrite token_here_trailing.
Qed.





(** ** The two outcomes of [clean_and_format_text] *)

Lemma truthy_str (text : str) : text ≠ [] → truthy (VStr text) = true.
Proof. intros H. cbn. by rewrite bool_decide_eq_false_2. Qed.

Lemma clean_found (text : str) (m : re_match) :
  text ≠ [] → last (level_matches (strip text)) = Some m →
  clean_and_format_text (VStr text)
  = Ok (Some (formatted (strip text) m), Some (m_group1 m)).
Proof.
  intros Hne Hm. unfold clean_and_format_text, formatted.
  rewrite truthy_str by done. cbn [negb py_str].
  unfold index_last. rewrite Hm.
  destruct (level_matches (strip text)); [done|]. cbn [nonempty].
  destruct (nonempty (strip _)); [|by rewrite app_nil_r].
  by rewrite <- !(assoc_L (++)).
Qed.

Lemma clean_not_found (text : str) :
  text ≠ [] → level_matches (strip text) = [] →
  clean_and_format_text (VStr text) = Ok (Some (strip text), None).
Proof.
  intros Hne Hm. unfold clean_and_format_text.
  rewrite truthy_str by done. cbn [negb py_str]. by rewrite Hm.
Qed.

Lemma clean_total (text : pyval) : ∃ r, clean_and_format_text text = Ok r.
Proof.
  unfold clean_and_format_text. destruct (negb (truthy text)); [by eexists|].
  unfold index_last.
  destruct (level_matches _) as [|m ms] eqn:E; cbn [nonempty]; [by eexists|].
  destruct (last (m :: ms)) eqn:El; [by eexists|].
  by apply last_None in El.
Qed.

(** ** Properties of [clean_and_format_text] *)

(** C1, as stated, fails: for "some book (read with me) 5" the result is not
    ("Some Book\n5\n(Read With Me)", "5"). *)
Lemma note_before_level_not_suffix :
  clean_and_format_text (VStr (lit "some book (read with me) 5"))
  ≠ Ok (Some (lit "Some Book" ++ [newline] ++ lit "5" ++ [newline]
              ++ lit "(Read With Me)"),
        Some (lit "5")).
Proof. by vm_compute. Qed.

(** C1, amended: for "some book (read with me) 5" the result is
    ("Some Book (read With Me)\n5", "5").  The note stands before the level,
    so it stays in the name line, capitalised word by word, and no suffix
    line is written. *)
Theorem note_before_level_stays_in_name :
  clean_and_format_text (VStr (lit "some book (read with me) 5"))
  = Ok (Some (lit "Some Book (read With Me)" ++ [newline] ++ lit "5"),
        Some (lit "5")).
Proof. by vm_compute. Qed.




(** C6: [clean_and_format_text] never raises: it returns a result for every
    value, and a string in which neither pattern finds a match yields the
    trimmed string and no level. *)
Theorem never_raises :
  (∀ text : pyval, ∃ r, clean_and_format_text text = Ok r)
  ∧ (∀ text : str,
       text ≠ [] →
       finditer level_after_space (strip text) = [] →
       finditer level_at_end (strip text) = [] →
       clean_and_format_text (VStr text) = Ok (Some (strip text), None)).
Proof.
  split; [apply clean_total|]. intros text Hne H1 H2.
  apply clean_not_found; [done|]. unfold level_matches. by rewrite H1.
Qed.

Lemma never_raises_witness :
  clean_and_format_text (VStr (lit "vol. 3+4 (??) "))
  = Ok (Some (lit "vol. 3+4 (??)"), None).
Proof.
  apply (proj2 never_raises (lit "vol. 3+4 (??) ")).
  - done.
  - by vm_compute.
  - by vm_compute.
Defined.

Lemma level_alone_matches (level : str) :
  is_level level = true →
  level_matches level = [Match 0 (length level) level].
Proof.
  intros Hl. unfold level_matches. rewrite finditer_no_tokens.
  - by apply finditer_at_end_level.
  - unfold level_tokens.
    destruct level as [|a [|b [|c [|e l]]]]; [done| | | |done].
    all: cbn in Hl |- *.
    all: classify a; try done; try (classify b; try done;
                                    try (classify c; try done)).
Qed.

(** C10: an input that is a level and nothing else yields an empty first
    line, a newline and the level. *)
Theorem lone_level_empty_name (level : str) :
  is_level level = true →
  clean_and_format_text (VStr level) = Ok (Some (newline :: level), Some level).
Proof.
  intros Hl. pose proof (level_nonspace _ Hl) as [Hne Hns].
  assert (Hs : strip level = level) by (by apply strip_tight, word_tight).
  rewrite (clean_found level (Match 0 (length level) level)); [|done|].
  - unfold formatted. rewrite Hs. cbn [m_start m_end m_group1].
    rewrite drop_all. cbn. by rewrite app_nil_r.
  - by rewrite Hs, level_alone_matches.
Qed.

Lemma lone_level_empty_name_witness :
  clean_and_format_text (VStr (lit "12+"))
  = Ok (Some (newline :: lit "12+"), Some (lit "12+")).
Proof. apply (lone_level_empty_name (lit "12+")). by vm_compute. Defined.







(** ** Formatted text as input *)


Lemma level_tight level : is_level level = true → tight level.
Proof. intros Hl. by apply word_tight, level_nonspace. Qed.

Lemma strip_split s :
  ∃ w w', s = w ++ strip s ++ w'
          ∧ Forall (λ c, isspace c = true) w
          ∧ Forall (λ c, isspace c = true) w'.
Proof.
  destruct (lstrip_split s) as (w & Hs & Hw).
  destruct (rstrip_split (lstrip s)) as (w' & Hs' & Hw').
  exists w, w'. split; [|done]. unfold strip. by rewrite <- Hs'.
Qed.

(** A name line, a newline and a level: the level is found again, the name
    is trimmed and capitalised. *)
Lemma clean_name_level (name level : str) :
  is_level level = true →
  clean_and_format_text (VStr (name ++ newline :: level))
  = Ok (Some (capwords (strip name) ++ newline :: level), Some level).
Proof.
  intros Hl.
  assert (Hne : name ++ newline :: level ≠ []) by (by destruct name).
  pose proof (level_tight _ Hl) as [Hl1 Hl2].
  pose proof (strip_boundary name) as Hx.
  destruct (strip_split name) as (w & w' & Hn & Hw & Hw').
  remember (strip name) as x eqn:Ex. clear Ex. subst name.
  set (W := w' ++ [newline]).
  assert (HW : Forall (λ c, isspace c = true) W).
  { apply Forall_app. split; [done|]. by repeat constructor. }
  assert (HWne : W ≠ []) by (unfold W; by destruct w').
  assert (Hwhole : (w ++ x ++ w') ++ newline :: level = w ++ x ++ W ++ level).
  { unfold W. rewrite <- !(assoc_L (++)). done. }
  rewrite Hwhole in *. clear Hwhole.
  destruct Hx as [->|Ht].
  - (* the name is blank *)
    assert (Hs : strip (w ++ [] ++ W ++ level) = level).
    { unfold strip. cbn [app]. rewrite !lstrip_spaces by done.
      rewrite lstrip_tight by done. by apply rstrip_tight. }
    rewrite (clean_found _ (Match 0 (length level) level)); [|done|].
    + unfold formatted. rewrite Hs. cbn [m_start m_end m_group1].
      rewrite drop_all. cbn. by rewrite app_nil_r.
    + by rewrite Hs, level_alone_matches.
  - (* the name holds a word *)
    assert (Hs : strip (w ++ x ++ W ++ level) = x ++ W ++ level).
    { unfold strip. rewrite lstrip_spaces by done.
      destruct Ht as [Ht1 Ht2]. rewrite lstrip_tight by (by destruct x).
      rewrite !(assoc_L (++)). by apply rstrip_app_tight. }
    pose proof (scan_last_level x W level 0 (or_intror (proj2 Ht)) HWne HW Hl)
      as Hlast.
    fold (finditer level_after_space (x ++ W ++ level)) in Hlast.
    rewrite (clean_found _ (Match (0 + length x)
                              (0 + length x + length W + length level) level)
               Hne); rewrite Hs.
    + unfold formatted. cbn [m_start m_end m_group1].
      rewrite !Nat.add_0_l, take_app_length.
      replace (length x + length W + length level)
        with (length (x ++ W ++ level)) by (rewrite !length_app; lia).
      rewrite drop_all. rewrite (strip_tight x) by done.
      cbn. by rewrite app_nil_r.
    + unfold level_matches.
      by destruct (finditer level_after_space (x ++ W ++ level)).
Qed.

(** Group 1 of every match is a level. *)
Lemma level_matches_levels (val : str) :
  Forall (λ m, is_level (m_group1 m) = true) (level_matches val).
Proof.
  unfold level_matches, finditer. case_match.
  - apply (scan_groups _ (λ g, is_level g = true)).
    intros r n g Hr. by apply level_at_end_Some in Hr as [? _].
  - apply (scan_groups _ (λ g, is_level g = true)).
    intros r n g. rewrite level_after_space_eq.
    destruct (nonempty (ws_span r)); [|done].
    destruct (token_here _) as [d|] eqn:E; cbn; [|done]. intros [= <- <-].
    by apply token_here_Some in E as [? _].
Qed.

(** What a formatted text is made of. *)
Lemma clean_output (v : pyval) (o : str) (l0 : option str) :
  clean_and_format_text v = Ok (Some o, l0) →
  (level_matches (strip (py_str v)) = [] ∧ o = strip (py_str v) ∧ l0 = None)
  ∨ (∃ m, last (level_matches (strip (py_str v))) = Some m
          ∧ o = formatted (strip (py_str v)) m
          ∧ l0 = Some (m_group1 m)
          ∧ is_level (m_group1 m) = true).
Proof.
  unfold clean_and_format_text. destruct (negb (truthy v)); [done|].
  pose proof (level_matches_levels (strip (py_str v))) as Hlv.
  unfold index_last.
  destruct (level_matches _) as [|m0 ms] eqn:E; cbn [nonempty].
  - intros [= <- <-]. by left.
  - destruct (last (m0 :: ms)) as [m|] eqn:El; [|done].
    intros [= <- <-]. right. exists m. split; [done|].
    split; [|split; [done|]].
    + unfold formatted. destruct (nonempty (strip _)).
      * by rewrite <- !(assoc_L (++)).
      * by rewrite app_nil_r.
    + rewrite Forall_forall in Hlv. apply Hlv.
      by apply last_Some_elem_of.
Qed.





(** ** The sheet traversal *)

Lemma get_cell_insert ws q y p :
  get_cell (<[q := y]> ws) p = if decide (q = p) then y else get_cell ws p.
Proof.
  unfold get_cell. rewrite lookup_insert. by case_decide.
Qed.

Lemma ws_cell_spec ws row col :
  (ws_cell ws row col).1 = get_cell ws (row, col)
  ∧ ∀ p, get_cell (ws_cell ws row col).2 p = get_cell ws p.
Proof.
  unfold ws_cell, get_cell.
  destruct (ws !! (row, col)) as [x|] eqn:E; cbn; [done|].
  split; [done|]. intros p. rewrite lookup_insert.
  case_decide; [|done]. subst p. by rewrite E.
Qed.

Lemma clean_truthy (v : pyval) :
  truthy v = true →
  ∃ o level, clean_and_format_text v = Ok (Some o, level)
             ∧ ∀ l, level = Some l → l ≠ [].
Proof.
  intros Hv. unfold clean_and_format_text. rewrite Hv. cbn [negb].
  pose proof (level_matches_levels (strip (py_str v))) as Hlv.
  unfold index_last.
  destruct (level_matches _) as [|m0 ms] eqn:E; cbn [nonempty].
  - eexists _, _. split; [done|]. done.
  - destruct (last (m0 :: ms)) as [m|] eqn:El; [|by apply last_None in El].
    eexists _, _. split; [done|]. intros l [= <-].
    rewrite Forall_forall in Hlv. apply last_Some_elem_of, Hlv in El.
    by apply level_nonspace in El as [? _].
Qed.

Lemma dict_index_get {V} k (d : dict V) v :
  dict_get k d = Some v → dict_index k d = Ok v.
Proof. unfold dict_index. by intros ->. Qed.

(** What the loop body does to the cell it is run on. *)
Lemma process_cell_spec lcm row col (s : sheet_state) :
  let x := get_cell (st_cells s) (row, col) in
  ∃ s', process_cell lcm row s col = Ok s'
    ∧ (∀ p, p ≠ (row, col) →
            get_cell (st_cells s') p = get_cell (st_cells s) p)
    ∧ ((fill (get_cell (st_cells s') (row, col)) = fill x
        ∧ st_styles s' = st_styles s
        ∧ (truthy (value x) = false
           ∨ ∀ l, extracted_level x = Some l → dict_get l lcm = None))
       ∨ (∃ l ref,
            truthy (value x) = true
            ∧ extracted_level x = Some l
            ∧ dict_get l lcm = Some ref
            ∧ fill (get_cell (st_cells s') (row, col)) = length (st_styles s)
            ∧ st_styles s'
              = st_styles s ++ [default default_fill (st_styles s !! ref)])).
Proof.
  intros x. unfold process_cell.
  destruct (ws_cell_spec (st_cells s) row col) as [Hc Hws].
  destruct (ws_cell (st_cells s) row col) as [c ws]. cbn in Hc, Hws.
  fold x in Hc. subst c.
  destruct (truthy (value x)) eqn:Ht.
  - destruct (clean_truthy _ Ht) as (o & level & Hclean & Hl).
    assert (Hex : extracted_level x = level).
    { unfold extracted_level. by rewrite Hclean. }
    rewrite Hclean. cbn [mbind result_bind of_option_str].
    destruct level as [l|]; cbn [of_option_str py_str].
    + rewrite truthy_str by (by apply Hl). cbn [andb].
      unfold dict_mem. destruct (dict_get l lcm) as [ref|] eqn:Hd.
      * rewrite bool_decide_eq_true_2 by done.
        rewrite (dict_index_get _ _ _ Hd). cbn.
        eexists. split; [done|]. cbn. split.
        -- intros p Hp. rewrite get_cell_insert, decide_False by congruence.
           apply Hws.
        -- right. exists l, ref. rewrite get_cell_insert, decide_True by done.
           done.
      * rewrite bool_decide_eq_false_2 by (by intros [? ?]).
        eexists. split; [done|]. cbn. split.
        -- intros p Hp. rewrite get_cell_insert, decide_False by congruence.
           apply Hws.
        -- left. rewrite get_cell_insert, decide_True by done.
           repeat split; [done..|]. right. intros l' Hl'. congruence.
    + cbn. eexists. split; [done|]. cbn. split.
      * intros p Hp. rewrite get_cell_insert, decide_False by congruence.
           apply Hws.
      * left. rewrite get_cell_insert, decide_True by done.
        repeat split; [done..|]. right. intros l' Hl'. congruence.
  - eexists. split; [done|]. cbn. split; [by intros p _|].
    left. rewrite Hws. by repeat split; [..|left].
Qed.

Lemma untouched_refl p s : untouched p s s.
Proof. by split. Qed.

Lemma untouched_trans p s1 s2 s3 :
  untouched p s1 s2 → untouched p s2 s3 → untouched p s1 s3.
Proof.
  intros [H1 H1'] [H2 H2']. split; [congruence|by etrans].
Qed.

Lemma process_cell_total lcm row s col :
  ∃ s', process_cell lcm row s col = Ok s'.
Proof. destruct (process_cell_spec lcm row col s) as (s' & H & _). eauto. Qed.

Lemma process_cell_styles lcm row s col s' :
  process_cell lcm row s col = Ok s' → st_styles s `prefix_of` st_styles s'.
Proof.
  intros H. destruct (process_cell_spec lcm row col s) as (s2 & H2 & _ & Hs).
  rewrite H in H2. injection H2 as <-.
  destruct Hs as [(_ & -> & _)|(l & ref & _ & _ & _ & _ & ->)]; [done|].
  by apply prefix_app_r.
Qed.

Lemma process_cell_untouched lcm row s col s' p :
  process_cell lcm row s col = Ok s' → p ≠ (row, col) → untouched p s s'.
Proof.
  intros H Hp. split; [|by eapply process_cell_styles].
  destruct (process_cell_spec lcm row col s) as (s2 & H2 & Ho & _).
  rewrite H in H2. injection H2 as <-. by apply Ho.
Qed.

Lemma for_each_total {S A} (body : S → A → result S) (l : list A) :
  (∀ s a, ∃ s', body s a = Ok s') → ∀ s, ∃ s', for_each body s l = Ok s'.
Proof.
  intros Hb. induction l as [|a l IH]; intros s; cbn; [by eexists|].
  destruct (Hb s a) as [s1 ->]. cbn. apply IH.
Qed.

Lemma for_each_cons {S A} (body : S → A → result S) s a l s' :
  for_each body s (a :: l) = Ok s' →
  ∃ s1, body s a = Ok s1 ∧ for_each body s1 l = Ok s'.
Proof. cbn. destruct (body s a) as [s1|]; [|done]. cbn. eauto. Qed.

Lemma process_row_total lcm s row : ∃ s', process_row lcm s row = Ok s'.
Proof. apply for_each_total. intros. apply process_cell_total. Qed.

Lemma process_table_total lcm s : ∃ s', process_table lcm s = Ok s'.
Proof. apply for_each_total. intros. apply process_row_total. Qed.

(** The columns of a row other than that of [p] leave [p] alone. *)
Lemma cells_untouched lcm row (cols : list nat) p s s' :
  (∀ c, c ∈ cols → p ≠ (row, c)) →
  for_each (process_cell lcm row) s cols = Ok s' → untouched p s s'.
Proof.
  revert s. induction cols as [|c cols IH]; intros s Hp H.
  - injection H as <-. apply untouched_refl.
  - apply for_each_cons in H as (s1 & H1 & H).
    eapply untouched_trans.
    + eapply process_cell_untouched; [done|]. apply Hp. set_solver.
    + apply IH; [|done]. intros c' Hc'. apply Hp. set_solver.
Qed.

(** In its row a cell is handled once at most. *)
Lemma cells_once lcm (cols : list nat) p s s' :
  NoDup cols →
  for_each (process_cell lcm p.1) s cols = Ok s' →
  untouched p s s' ∨ once lcm p s s'.
Proof.
  revert s. induction cols as [|c cols IH]; intros s Hnd H.
  - injection H as <-. left. apply untouched_refl.
  - apply for_each_cons in H as (s1 & H1 & H).
    apply NoDup_cons in Hnd as [Hc Hnd].
    destruct (decide (p = (p.1, c))) as [Hp|Hp].
    + right. exists s, s1. split; [apply untouched_refl|].
      split; [by rewrite Hp at 2|].
      eapply cells_untouched; [|done]. intros c' Hc' E.
      rewrite Hp in E. injection E as <-. done.
    + pose proof (process_cell_untouched _ _ _ _ _ _ H1 Hp) as Hu.
      destruct (IH s1 Hnd H) as [Hu'|(s2 & s3 & Hu2 & Hp3 & Hu3)].
      * left. by eapply untouched_trans.
      * right. exists s2, s3. split; [by eapply untouched_trans|]. done.
Qed.

(** The rows other than that of [p] leave [p] alone. *)
Lemma rows_untouched lcm (rows : list nat) p s s' :
  p.1 ∉ rows →
  for_each (process_row lcm) s rows = Ok s' → untouched p s s'.
Proof.
  revert s. induction rows as [|r rows IH]; intros s Hp H.
  - injection H as <-. apply untouched_refl.
  - apply for_each_cons in H as (s1 & H1 & H).
    apply not_elem_of_cons in Hp as [Hr Hp].
    eapply untouched_trans; [|by apply IH].
    eapply cells_untouched; [|exact H1]. intros c _ ->. done.
Qed.

(** In the table a cell is handled once at most. *)
Lemma rows_once lcm (rows : list nat) p s s' :
  NoDup rows →
  for_each (process_row lcm) s rows = Ok s' →
  untouched p s s' ∨ once lcm p s s'.
Proof.
  revert s. induction rows as [|r rows IH]; intros s Hnd H.
  - injection H as <-. left. apply untouched_refl.
  - apply for_each_cons in H as (s1 & H1 & H).
    apply NoDup_cons in Hnd as [Hr Hnd].
    destruct (decide (p.1 = r)) as [<-|Hp].
    + pose proof (rows_untouched _ _ _ _ _ Hr H) as Hu.
      destruct (cells_once _ _ _ _ _ (NoDup_seq _ _) H1)
        as [Hu1|(s2 & s3 & Hu2 & Hp3 & Hu3)].
      * left. by eapply untouched_trans.
      * right. exists s2, s3. split; [done|]. split; [done|].
        by eapply untouched_trans.
    + assert (Hu : untouched p s s1).
      { eapply cells_untouched; [|exact H1]. intros c _ ->. done. }
      destruct (IH s1 Hnd H) as [Hu'|(s2 & s3 & Hu2 & Hp3 & Hu3)].
      * left. by eapply untouched_trans.
      * right. exists s2, s3. split; [by eapply untouched_trans|]. done.
Qed.

Lemma process_table_once lcm p s s' :
  process_table lcm s = Ok s' → untouched p s s' ∨ once lcm p s s'.
Proof. apply rows_once, NoDup_seq. Qed.


(** C7: the traversal changes the fill of a cell only when the level
    extracted from the cell is a key of the legend map; a cell whose level
    is none, or is not a key, keeps the fill it had, and the fill is the
    same object with the same content. *)
Theorem fill_kept_without_legend_match (lcm : dict nat) (s : sheet_state) :
  ∃ s', process_table lcm s = Ok s'
    ∧ ∀ p,
        (∀ l, extracted_level (get_cell (st_cells s) p) = Some l →
              dict_get l lcm = None) →
        fill (get_cell (st_cells s') p) = fill (get_cell (st_cells s) p)
        ∧ ∀ f, st_styles s !! fill (get_cell (st_cells s) p) = Some f →
               st_styles s' !! fill (get_cell (st_cells s') p) = Some f.
Proof.
  destruct (process_table_total lcm s) as [s' H]. exists s'. split; [done|].
  intros p Hno.
  assert (Hfill : fill (get_cell (st_cells s') p)
                  = fill (get_cell (st_cells s) p)
                  ∧ st_styles s `prefix_of` st_styles s').
  { destruct (process_table_once _ p _ _ H)
      as [[Hc Hs]|(s1 & s2 & [Hc1 Hs1] & Hp & [Hc2 Hs2])].
    - by rewrite Hc.
    - destruct (process_cell_spec lcm p.1 p.2 s1) as (s2' & Hp' & _ & Hcase).
      rewrite Hp in Hp'. injection Hp' as <-.
      rewrite <- surjective_pairing in Hcase. rewrite Hc1 in Hcase.
      destruct Hcase as [(Hf & Hst & _)|(l & ref & _ & Hl & Hd & _)].
      + split; [congruence|]. etrans; [done|]. by rewrite <- Hst.
      + apply Hno in Hl. congruence. }
  destruct Hfill as [Hf Hpre]. split; [done|]. intros f Hlook.
  rewrite Hf. by eapply prefix_lookup_Some.
Qed.

(** C8: when the input file is missing, or the workbook lacks the sheet, the
    run prints a diagnostic after the loading line and stops: nothing is
    saved.  A file is saved only when the file and the sheet are found, and
    then it is. *)
Theorem missing_input_no_write (fs : gmap string workbook) (filename : string) :
  (fs !! filename = None →
   update_excel_sheet fs filename
   = Ok [Print ("Loading " +:+ filename +:+ "...");
         Print "Error: File not found. Please ensure the Excel file is in the same folder."])
  ∧ (∀ wb, fs !! filename = Some wb → sheets wb !! sheet_name = None →
     update_excel_sheet fs filename
     = Ok [Print ("Loading " +:+ filename +:+ "...");
           Print "Error: Sheet '2B Liben 2.0' not found."])
  ∧ (∀ trace out wb',
       update_excel_sheet fs filename = Ok trace → Save out wb' ∈ trace →
       ∃ wb ws, fs !! filename = Some wb ∧ sheets wb !! sheet_name = Some ws)
  ∧ (∀ wb ws, fs !! filename = Some wb → sheets wb !! sheet_name = Some ws →
     ∃ trace wb', update_excel_sheet fs filename = Ok trace
                  ∧ Save output_filename wb' ∈ trace).
Proof.
  unfold update_excel_sheet. repeat split.
  - by intros ->.
  - by intros wb -> ->.
  - intros trace out wb'. destruct (fs !! filename) as [wb|]; cbn.
    + destruct (sheets wb !! sheet_name) as [ws|] eqn:E.
      * intros _ _. by exists wb, ws.
      * intros [= <-] Hin. rewrite !elem_of_cons, elem_of_nil in Hin.
        by destruct Hin as [?|[?|[]]].
    + intros [= <-] Hin. rewrite !elem_of_cons, elem_of_nil in Hin.
      by destruct Hin as [?|[?|[]]].
  - intros wb ws -> ->. destruct (read_legend ws) as [ws1 lcm].
    destruct (process_table_total lcm (State ws1 (styles wb))) as [s' ->].
    cbn. eexists _, _. split; [done|]. do 4 apply list_elem_of_further.
    apply list_elem_of_here.
Qed.



Lemma fill_kept_without_legend_match_witness :
  ∃ s', process_table example_legend example_state = Ok s'
        ∧ fill (get_cell (st_cells s') (2, 7)) = 0.
Proof.
  destruct (fill_kept_without_legend_match example_legend example_state)
    as (s' & H & Hp).
  exists s'. split; [done|]. apply (Hp (2, 7)). intros l. by vm_compute.
Defined.

Lemma missing_input_no_write_witness :
  update_excel_sheet ∅ "Liben Kbely Reading records (2).xlsx"
  = Ok [Print "Loading Liben Kbely Reading records (2).xlsx...";
        Print "Error: File not found. Please ensure the Excel file is in the same folder."]
  ∧ update_excel_sheet {["book.xlsx" := example_workbook]} "book.xlsx"
    = Ok [Print "Loading book.xlsx...";
          Print "Error: Sheet '2B Liben 2.0' not found."].
Proof.
  split.
  - apply (proj1 (missing_input_no_write
                    ∅ "Liben Kbely Reading records (2).xlsx")).
    reflexivity.
  - apply (proj1 (proj2 (missing_input_no_write
                           {["book.xlsx" := example_workbook]} "book.xlsx"))
             example_workbook); by vm_compute.
Defined.


(** * Further properties *)

(** ** Whitespace around a text *)

Lemma strip_nil_spaces s : strip s = [] → Forall (λ c, isspace c = true) s.
Proof.
  intros E. destruct (strip_split s) as (w & w' & Hs & Hw & Hw').
  rewrite Hs, E. by apply Forall_app.
Qed.

Lemma lstrip_all_spaces w : Forall (λ c, isspace c = true) w → lstrip w = [].
Proof.
  intros Hw. rewrite <- (app_nil_r w). by rewrite lstrip_spaces.
Qed.

Lemma strip_app_spaces (s w : str) :
  Forall (λ c, isspace c = true) w → strip (s ++ w) = strip s.
Proof.
  intros Hw. unfold strip. destruct (lstrip_boundary s) as [E|H].
  - pose proof (ws_span_lstrip s) as Hs. rewrite E, app_nil_r in Hs.
    rewrite E, <- Hs, lstrip_spaces by apply ws_span_spaces.
    by rewrite lstrip_all_spaces.
  - rewrite lstrip_app by (by intros E; rewrite E in H).
    unfold rstrip. rewrite reverse_app, lstrip_spaces; [done|].
    by apply Forall_reverse.
Qed.

Lemma strip_spaces_app (w s : str) :
  Forall (λ c, isspace c = true) w → strip (w ++ s) = strip s.
Proof. intros Hw. unfold strip. by rewrite lstrip_spaces. Qed.

Lemma tight_strip_app (x y : str) :
  tight x → y = [] ∨ at_boundary (reverse y) = false → strip (x ++ y) = x ++ y.
Proof.
  intros [Hx1 Hx2] Hy. apply strip_tight. split.
  - by destruct x.
  - rewrite reverse_app. destruct Hy as [->|Hy]; [done|].
    by destruct (reverse y).
Qed.

(** ** A level followed by more text *)

Lemma level_after_space_post (w level post : str) :
  w ≠ [] → Forall (λ c, isspace c = true) w → is_level level = true →
  at_boundary post = true →
  level_after_space (w ++ level ++ post)
  = Some (length w + length level, level).
Proof.
  intros Hne Hw Hl Hb. rewrite level_after_space_eq.
  assert (Hlp : at_boundary (level ++ post) = false).
  { apply level_boundary in Hl. by destruct level. }
  rewrite ws_span_app, lstrip_spaces, lstrip_tight by done.
  destruct w; [done|]. cbn [nonempty].
  by rewrite token_here_level.
Qed.

Lemma scan_no_tokens (post : str) i :
  level_tokens post = [] → scan level_after_space post i 0 = [].
Proof.
  intros H. apply fmap_nil_inv with (f := m_group1). by rewrite scan_tokens.
Qed.

(** In a text where whitespace and a level are followed only by text
    without level token, the last match is that level. *)
Lemma scan_last_level_post (x w level post : str) i :
  x = [] ∨ at_boundary (reverse x) = false →
  w ≠ [] → Forall (λ c, isspace c = true) w → is_level level = true →
  at_boundary post = true → level_tokens post = [] →
  last (scan level_after_space (x ++ w ++ level ++ post) i 0)
  = Some (Match (i + length x) (i + length x + length w + length level) level).
Proof.
  intros Hx Hne Hw Hl Hb Hno.
  remember (length x) as n eqn:Hn. assert (Hle : length x ≤ n) by lia.
  rewrite Hn. clear Hn. revert x i Hx Hle.
  induction n as [|n IH]; intros x i Hx Hle.
  - destruct x; [|cbn in Hle; lia]. cbn [app length].
    rewrite (scan_match _ _ _ _ _
               (level_after_space_post w level post Hne Hw Hl Hb)).
    + rewrite (assoc_L (++)), <- length_app, drop_app_length.
      rewrite scan_no_tokens by done. cbn.
      rewrite length_app. do 2 f_equal; lia.
    + destruct w; [done|]. cbn. lia.
    + rewrite !length_app. lia.
  - destruct x as [|c x]; [apply IH; [by left|cbn; lia]|].
    destruct Hx as [?|Hx]; [done|].
    destruct w as [|s w]; [done|]. apply Forall_cons in Hw as Hw'.
    destruct Hw' as [Hs Hw'].
    destruct (level_after_space ((c :: x) ++ (s :: w) ++ level ++ post))
      as [[m g]|] eqn:E.
    + pose proof E as Hin. apply level_after_space_within in Hin as [H1 H2];
        [|done..].
      rewrite (scan_match _ _ _ _ _ E); [|done|rewrite length_app; lia].
      rewrite drop_app_le by done. rewrite last_cons.
      rewrite IH.
      * do 2 f_equal; rewrite length_drop; cbn [length] in *; lia.
      * apply ends_nonspace_drop. by right.
      * rewrite length_drop. cbn [length] in *. lia.
    + change ((c :: x) ++ (s :: w) ++ level ++ post)
        with (c :: (x ++ (s :: w) ++ level ++ post)) in *.
      rewrite scan_miss by done. rewrite (IH x (S i)).
      * do 2 f_equal; cbn; lia.
      * apply (ends_nonspace_drop (c :: x) 1). by right.
      * cbn in Hle. lia.
Qed.

Lemma rstrip_post (post : str) :
  at_boundary post = true → level_tokens post = [] →
  at_boundary (rstrip post) = true ∧ level_tokens (rstrip post) = []
  ∧ (rstrip post = [] ∨ at_boundary (reverse (rstrip post)) = false)
  ∧ strip (rstrip post) = strip post.
Proof.
  intros Hb Hno. destruct (rstrip_split post) as (c & Hp & Hc).
  repeat split.
  - destruct (rstrip post) as [|h t] eqn:E; [done|].
    rewrite Hp in Hb. done.
  - unfold level_tokens in *. rewrite Hp in Hno.
    by rewrite tokens_trailing in Hno.
  - apply rstrip_boundary.
  - rewrite Hp at 2. by rewrite strip_app_spaces.
Qed.

(** A name, whitespace, a level and then text without a further level
    token: the name is trimmed and capitalised word by word, the level
    stands on the second line and the rest of the text, trimmed, on a third
    line when there is any. *)
Lemma clean_name_level_post (name w level post : str) :
  w ≠ [] → Forall (λ c, isspace c = true) w → is_level level = true →
  at_boundary post = true → level_tokens post = [] →
  strip name ≠ [] ∨ strip post = [] →
  clean_and_format_text (VStr (name ++ w ++ level ++ post))
  = Ok (Some (capwords (strip name) ++ [newline] ++ level
              ++ (if nonempty (strip post)
                  then [newline] ++ strip post else [])),
        Some level).
Proof.
  intros Hne Hw Hl Hb Hno Hcase.
  assert (Htext : name ++ w ++ level ++ post ≠ []).
  { destruct name; [|done]. by destruct w. }
  pose proof (level_tight _ Hl) as Hlt.
  pose proof (strip_boundary name) as Hx.
  destruct (strip_split name) as (a & b & Hn & Ha & Hb').
  destruct Hx as [E|Ht].
  - (* nothing but whitespace before the level, and after it *)
    destruct Hcase as [?|Hpost]; [done|].
    pose proof (strip_nil_spaces _ E) as Hname.
    pose proof (strip_nil_spaces _ Hpost) as Hpostw.
    assert (Hs : strip (name ++ w ++ level ++ post) = level).
    { rewrite !(assoc_L (++)), strip_app_spaces by done.
      rewrite strip_spaces_app by (by apply Forall_app).
      by apply strip_tight. }
    rewrite (clean_found _ (Match 0 (length level) level)); [|done|].
    + unfold formatted. rewrite Hs, E, Hpost. cbn [m_start m_end m_group1].
      rewrite drop_all. cbn. by rewrite app_nil_r.
    + by rewrite Hs, level_alone_matches.
  - (* the name holds a word *)
    destruct (rstrip_post post Hb Hno) as (Hb0 & Hno0 & Hend & Hstrip).
    destruct (rstrip_split post) as (c & Hp & Hc).
    remember (rstrip post) as post0 eqn:E0. clear E0.
    remember (strip name) as x eqn:Ex. clear Ex.
    set (W := b ++ w).
    assert (HW : Forall (λ c, isspace c = true) W) by (by apply Forall_app).
    assert (HWne : W ≠ []) by (unfold W; destruct b; by destruct w).
    assert (Hwhole : name ++ w ++ level ++ post
                     = a ++ (x ++ W ++ level ++ post0) ++ c).
    { rewrite Hn, Hp. unfold W. by rewrite <- !(assoc_L (++)). }
    assert (Hs : strip (name ++ w ++ level ++ post) = x ++ W ++ level ++ post0).
    { rewrite Hwhole, strip_spaces_app, strip_app_spaces by done.
      apply tight_strip_app; [done|].
      destruct Hend as [->|Hend].
      - right. rewrite app_nil_r, reverse_app.
        destruct Hlt as [_ Hl2]. by destruct (reverse level).
      - right. rewrite !reverse_app. by destruct (reverse post0). }
    pose proof (scan_last_level_post x W level post0 0
                  (or_intror (proj2 Ht)) HWne HW Hl Hb0 Hno0) as Hlast.
    fold (finditer level_after_space (x ++ W ++ level ++ post0)) in Hlast.
    rewrite (clean_found _ (Match (0 + length x)
                              (0 + length x + length W + length level) level)
               Htext); rewrite Hs.
    + unfold formatted. cbn [m_start m_end m_group1].
      rewrite !Nat.add_0_l, take_app_length.
      replace (length x + length W + length level)
        with (length (x ++ W ++ level)) by (rewrite !length_app; lia).
      rewrite !(assoc_L (++)), drop_app_length, <- !(assoc_L (++)).
      by rewrite (strip_tight x), Hstrip.
    + unfold level_matches.
      by destruct (finditer level_after_space (x ++ W ++ level ++ post0)).
Qed.

(** X1: a name, whitespace and a level, with whitespace allowed around, give
    the name, trimmed and capitalised word by word, a newline and the level;
    a note after the level, with no level token in it, is kept on a third
    line, trimmed and otherwise as it is. *)
Theorem name_level_note :
  (∀ name w level w' : str,
     w ≠ [] → Forall (λ c, isspace c = true) w →
     Forall (λ c, isspace c = true) w' → is_level level = true →
     clean_and_format_text (VStr (name ++ w ++ level ++ w'))
     = Ok (Some (capwords (strip name) ++ [newline] ++ level), Some level))
  ∧ (∀ name w level w' note : str,
       strip name ≠ [] → strip note ≠ [] →
       w ≠ [] → Forall (λ c, isspace c = true) w →
       w' ≠ [] → Forall (λ c, isspace c = true) w' →
       is_level level = true → numeric_tokens note = [] →
       clean_and_format_text (VStr (name ++ w ++ level ++ w' ++ note))
       = Ok (Some (capwords (strip name) ++ [newline] ++ level
                   ++ [newline] ++ strip note),
             Some level)).
Proof.
  split.
  - intros name w level w' Hne Hw Hw' Hl.
    assert (Hs : strip w' = []).
    { rewrite <- (app_nil_l w'), strip_app_spaces by done. done. }
    rewrite clean_name_level_post; try done.
    + by rewrite Hs, app_nil_r.
    + by destruct Hw'.
    + unfold level_tokens. rewrite <- (app_nil_r w').
      by rewrite tokens_spaces.
    + by right.
  - intros name w level w' note Hname Hnote Hne Hw Hne' Hw' Hl Hno.
    assert (Hs : strip (w' ++ note) = strip note) by (by apply strip_spaces_app).
    rewrite clean_name_level_post; try done.
    + rewrite Hs. by destruct (strip note).
    + destruct Hw'; [done|]. done.
    + unfold level_tokens. rewrite tokens_spaces by done.
      by destruct w'.
    + by left.
Qed.

Lemma name_level_note_witness :
  clean_and_format_text (VStr (lit "the BFG  5 (read with me) "))
  = Ok (Some (lit "The Bfg" ++ [newline] ++ lit "5" ++ [newline]
              ++ lit "(read with me)"),
        Some (lit "5")).
Proof.
  apply (proj2 name_level_note (lit "the BFG") (lit "  ") (lit "5")
           (lit " ") (lit "(read with me) ")); try (by vm_compute).
  all: by repeat constructor.
Defined.

(** ** Which pattern gives the level *)

(** X2: as soon as the trimmed text holds one level token after whitespace,
    the level is the last such token: a level that merely ends the text is
    not looked for. *)
Theorem spaced_token_wins (text : str) :
  level_tokens (strip text) ≠ [] →
  ∃ out, clean_and_format_text (VStr text)
         = Ok (Some out, last (level_tokens (strip text))).
Proof.
  intros Hne.
  pose proof (scan_tokens (strip text) 0) as Hs.
  fold (finditer level_after_space (strip text)) in Hs.
  fold (level_tokens (strip text)) in Hs.
  assert (Htext : text ≠ []) by (by intros ->).
  destruct (finditer level_after_space (strip text)) as [|m0 ms] eqn:Ef.
  { by rewrite <- Hs in Hne. }
  destruct (last (m0 :: ms)) as [m|] eqn:El; [|by apply last_None in El].
  exists (formatted (strip text) m).
  rewrite <- Hs, fmap_last, El. apply clean_found; [done|].
  unfold level_matches. by rewrite Ef.
Qed.

Lemma spaced_token_wins_witness :
  ∃ out, clean_and_format_text (VStr (lit "Book 3 part2"))
         = Ok (Some out, Some (lit "3")).
Proof. apply (spaced_token_wins (lit "Book 3 part2")). by vm_compute. Defined.

Section finditer_more.
Context (pat : pattern).

Lemma scan_misses (x y : str) i :
  (∀ j, j < length x → pat (drop j (x ++ y)) = None) →
  scan pat (x ++ y) i 0 = scan pat y (i + length x) 0.
Proof.
  revert i. induction x as [|c x IH]; intros i H.
  - cbn. by rewrite Nat.add_0_r.
  - change ((c :: x) ++ y) with (c :: (x ++ y)).
    rewrite scan_miss by (apply (H 0); cbn; lia).
    rewrite IH.
    + f_equal. cbn. lia.
    + intros j Hj. apply (H (S j)). cbn. lia.
Qed.

End finditer_more.

Lemma level_suffix_chain (q d : str) :
  q ≠ [] → is_level d = true → is_level (q ++ d) = true →
  ∃ c, last q = Some c ∧ is_level (c :: d) = true.
Proof.
  intros Hq Hd Hqd.
  destruct q as [|c1 [|c2 [|c3 q]]]; [done|by exists c1|..].
  - destruct d as [|a [|b d]]; cbn in Hd, Hqd; [done| |done].
    classify a; try done. classify c1; cbn in Hqd; try done.
    classify c2; by cbn in Hqd.
  - destruct d; [done|]. by destruct q.
Qed.

(** X3: when the trimmed text holds no level token after whitespace but ends
    with a level glued to what precedes, the level is the longest level that
    ends the text, and the name is what stands before it. *)
Theorem level_glued_to_text (text pre d : str) :
  strip text = pre ++ d → is_level d = true →
  level_tokens (pre ++ d) = [] →
  (∀ c, last pre = Some c → is_level (c :: d) = false) →
  clean_and_format_text (VStr text)
  = Ok (Some (capwords (strip pre) ++ [newline] ++ d), Some d).
Proof.
  intros Hs Hd Hno Hmax.
  assert (Htext : text ≠ []).
  { intros ->. destruct pre; [|done]. by destruct d. }
  assert (Htight : tight (pre ++ d)).
  { destruct (strip_boundary text) as [E|Ht]; rewrite Hs in *; [|done].
    apply app_eq_nil in E as [_ ->]. done. }
  assert (Hmiss : ∀ j, j < length pre → level_at_end (drop j (pre ++ d)) = None).
  { intros j Hj.
    destruct (level_at_end (drop j (pre ++ d))) as [[n d']|] eqn:E; [|done].
    exfalso. apply level_at_end_Some in E as (Hl' & _ & Hd' & Hr).
    rewrite drop_app_le in Hd', Hr by lia.
    apply at_dollar_cases in Hr as [Hr|Hr]; rewrite Hr in Hd'.
    - rewrite app_nil_r in Hd'.
      destruct (level_suffix_chain (drop j pre) d) as (c & Hc & Hcd);
        [|done|by rewrite Hd'|].
      + intros E. apply (f_equal length) in E. rewrite length_drop in E.
        cbn in E. lia.
      + rewrite <- (take_drop j pre), last_app, Hc in Hmax.
        by rewrite (Hmax c) in Hcd.
    - destruct Htight as [_ Ht].
      rewrite <- (take_drop j pre), <- (assoc_L (++)), Hd' in Ht.
      by rewrite !reverse_app in Ht. }
  assert (Hm : level_matches (pre ++ d)
               = [Match (length pre) (length pre + length d) d]).
  { unfold level_matches. rewrite finditer_no_tokens by done.
    cbn [nonempty negb]. unfold finditer.
    rewrite scan_misses by done.
    rewrite (scan_match _ _ _ _ _ (level_at_end_level d Hd)).
    - by rewrite drop_all, scan_nil.
    - apply level_nonspace in Hd as [Hne _]. destruct d; [done|cbn; lia].
    - done. }
  rewrite (clean_found _ (Match (length pre) (length pre + length d) d));
    [|done|by rewrite Hs, Hm].
  unfold formatted. rewrite Hs. cbn [m_start m_end m_group1].
  rewrite take_app_length, <- length_app, drop_all. cbn.
  by rewrite app_nil_r.
Qed.

Lemma level_glued_to_text_witness :
  clean_and_format_text (VStr (lit " apollo 113 "))
  = Ok (Some (lit "Apollo 1" ++ [newline] ++ lit "13"), Some (lit "13")).
Proof.
  apply (level_glued_to_text (lit " apollo 113 ") (lit "apollo 1") (lit "13"));
    try (by vm_compute).
  intros c [= <-]. by vm_compute.
Defined.

(** ** When a level is returned *)

Lemma no_token_no_match (val : str) :
  val = [] ∨ tight val → has_level_token val = false → level_matches val = [].
Proof.
  intros Hv [Htok Hend]%orb_false_iff. unfold level_matches.
  rewrite finditer_no_tokens by (by destruct (level_tokens _)).
  cbn [nonempty negb]. apply scan_no_match. intros k.
  by apply level_at_end_none.
Qed.

Lemma token_match (val : str) :
  has_level_token val = true → level_matches val ≠ [].
Proof.
  intros [Htok|Hend]%orb_true_iff; unfold level_matches.
  - pose proof (scan_tokens val 0) as Hs.
    fold (finditer level_after_space val) in Hs. fold (level_tokens val) in Hs.
    destruct (finditer level_after_space val); [|done].
    rewrite <- Hs in Htok. done.
  - destruct (finditer level_after_space val); [|done]. cbn [nonempty negb].
    intros E. unfold ends_with_level in Hend.
    apply existsb_exists in Hend as (k & _ & Hk).
    apply (scan_empty _ _ _ (length val - k)) in E.
    by rewrite (level_at_end_level _ Hk) in E.
Qed.

(** X4: for a non-empty string, a level is returned exactly when the
    trimmed text holds a level token: one after whitespace and before
    whitespace or the end, or one that ends the text. *)
Theorem level_iff_token (text : str) :
  text ≠ [] →
  (∃ out level, clean_and_format_text (VStr text) = Ok (Some out, Some level))
  ↔ has_level_token (strip text) = true.
Proof.
  intros Hne. split.
  - intros (out & level & H).
    destruct (has_level_token (strip text)) eqn:E; [done|].
    rewrite clean_not_found in H; [done..|].
    apply no_token_no_match; [apply strip_boundary|done].
  - intros Htok%token_match.
    destruct (last (level_matches (strip text))) as [m|] eqn:El.
    + eexists _, _. by apply clean_found.
    + by apply last_None in El.
Qed.

Lemma level_iff_token_witness :
  (∃ out level, clean_and_format_text (VStr (lit "catch-22 "))
                = Ok (Some out, Some level))
  ↔ has_level_token (strip (lit "catch-22 ")) = true.
Proof. apply (level_iff_token (lit "catch-22 ")). done. Defined.

(** X5: the shape of a formatted text.  When a level is returned, the text
    is a name line without newline, a newline and the level, which is one or
    two digits and an optional plus sign; the name is empty or is already
    trimmed and capitalised; either nothing follows the level, or a newline
    and a text that is not empty and neither starts nor ends with
    whitespace. *)
Theorem formatted_text_shape (v : pyval) (out level : str) :
  clean_and_format_text v = Ok (Some out, Some level) →
  is_level level = true
  ∧ ∃ name rest,
      out = name ++ [newline] ++ level ++ rest
      ∧ (newline ∉ name) ∧ (name = [] ∨ tight name) ∧ capwords name = name
      ∧ (rest = [] ∨ ∃ note, rest = newline :: note ∧ tight note).
Proof.
  intros H. apply clean_output in H as [(_ & _ & [=])|(m & _ & -> & E & Hl)].
  injection E as ->. split; [done|].
  unfold formatted.
  destruct (capwords_shape (strip (take (m_start m) (strip (py_str v)))))
    as [Hshape Hnl].
  pose proof (strip_boundary (drop (m_end m) (strip (py_str v)))) as Hsuf.
  exists (capwords (strip (take (m_start m) (strip (py_str v))))).
  destruct (strip (drop (m_end m) (strip (py_str v)))) as [|c s].
  - exists []. repeat split; [done..|apply capwords_idemp|by left].
  - exists (newline :: c :: s).
    repeat split; [done..|apply capwords_idemp|].
    right. destruct Hsuf as [?|Ht]; [done|]. by exists (c :: s).
Qed.

Lemma formatted_text_shape_witness :
  is_level (lit "10+") = true
  ∧ ∃ name rest,
      lit "3 Bears" ++ [newline] ++ lit "10+" ++ [newline] ++ lit "(new)"
      = name ++ [newline] ++ lit "10+" ++ rest
      ∧ (newline ∉ name) ∧ (name = [] ∨ tight name) ∧ capwords name = name
      ∧ (rest = [] ∨ ∃ note, rest = newline :: note ∧ tight note).
Proof.
  apply (formatted_text_shape (VStr (lit "3 bears 10+ (new)"))).
  by vm_compute.
Defined.

(** ** Formatting twice *)

Section finditer_last.
Context (pat : pattern).
Hypothesis pat_length : ∀ r n g, pat r = Some (n, g) → 1 ≤ n ∧ n ≤ length r.

(** The last match: where it is, and that the search finds nothing after
    it. *)
Lemma scan_last_inv (r : str) i m :
  last (scan pat r i 0) = Some m →
  ∃ k n, m = Match (i + k) (i + k + n) (m_group1 m)
         ∧ pat (drop k r) = Some (n, m_group1 m)
         ∧ scan pat (drop (k + n) r) (i + k + n) 0 = [].
Proof using pat_length.
  remember (length r) as len eqn:Hlen.
  assert (Hle : length r ≤ len) by lia. clear Hlen. revert r i Hle.
  induction len as [|len IH]; intros r i Hle.
  - destruct r; [|cbn in Hle; lia]. cbn.
    destruct (pat []) as [[n g]|] eqn:E; [|done].
    apply pat_length in E. cbn in E. lia.
  - destruct r as [|c r].
    { cbn. destruct (pat []) as [[n g]|] eqn:E; [|done].
      apply pat_length in E. cbn in E. lia. }
    destruct (pat (c :: r)) as [[n g]|] eqn:E.
    + pose proof (pat_length _ _ _ E) as [H1 H2].
      rewrite (scan_match _ _ _ _ _ E) by done. rewrite last_cons.
      destruct (last (scan pat (drop n (c :: r)) (i + n) 0)) as [m'|] eqn:El.
      * intros [= <-]. apply IH in El as (k & n' & Hm & Hp & Hrest).
        -- exists (n + k), n'. rewrite drop_drop in Hp, Hrest.
           replace (i + (n + k)) with (i + n + k) by lia.
           replace (n + k + n') with (n + (k + n')) by lia. done.
        -- rewrite length_drop. cbn [length] in *. lia.
      * intros [= <-]. apply last_None in El. exists 0, n.
        rewrite !Nat.add_0_r. cbn [m_group1 drop]. done.
    + rewrite scan_miss by done. intros Hm.
      apply IH in Hm as (k & n & Hm & Hp & Hrest); [|cbn in Hle; lia].
      exists (S k), n. cbn [drop].
      replace (i + S k) with (S i + k) by lia. done.
Qed.

End finditer_last.

Lemma level_after_space_length r n g :
  level_after_space r = Some (n, g) → 1 ≤ n ∧ n ≤ length r.
Proof.
  rewrite level_after_space_eq.
  destruct (ws_span r) as [|c w] eqn:Ew; [done|]. cbn [nonempty].
  destruct (token_here (lstrip r)) as [d|] eqn:Et; [|done].
  intros [= <- <-]. apply token_here_Some in Et as (_ & Hr & _).
  pose proof (ws_span_lstrip r) as E. rewrite Ew, Hr in E.
  apply (f_equal length) in E. rewrite !length_app in E. cbn in *. lia.
Qed.

Lemma level_at_end_length r n g :
  level_at_end r = Some (n, g) → 1 ≤ n ∧ n ≤ length r.
Proof.
  intros (Hl & -> & Hr & _)%level_at_end_Some.
  apply level_nonspace in Hl as [Hne _].
  apply (f_equal length) in Hr. rewrite length_app in Hr.
  destruct g; [done|]. cbn in *. lia.
Qed.

Lemma split_acc_nonempty w s : w ≠ [] → split_acc w s ≠ [].
Proof.
  revert w. induction s as [|c s IH]; intros w Hw; cbn.
  - by destruct w.
  - destruct (isspace c); [by destruct w|]. apply IH. by destruct w.
Qed.

Lemma capwords_tight s : lstrip s ≠ [] → tight (capwords s).
Proof.
  intros Hs. unfold capwords. apply join_tight.
  - apply Forall_fmap. eapply Forall_impl; [apply split_words|].
    apply capitalize_word.
  - intros E%fmap_nil_inv. revert E. unfold split.
    induction s as [|c s IH]; [done|]. cbn in Hs |- *.
    destruct (isspace c); [by apply IH|]. by apply split_acc_nonempty.
Qed.

(** A capitalised name, a newline and a level are left as they are. *)
Lemma clean_canonical (np level : str) :
  is_level level = true →
  clean_and_format_text (VStr (capwords np ++ newline :: level))
  = Ok (Some (capwords np ++ newline :: level), Some level).
Proof.
  intros Hl. rewrite clean_name_level by done.
  destruct (capwords_shape np) as [[E|Ht] _].
  - by rewrite E.
  - by rewrite strip_tight, capwords_idemp.
Qed.

Lemma note_without_tokens (post : str) :
  at_boundary post = true → level_tokens post = [] →
  numeric_tokens (strip post) = [].
Proof.
  intros Hb Hno. destruct (strip_split post) as (w & w' & Hp & Hw & Hw').
  destruct (strip_boundary post) as [E|[Ht _]]; [by rewrite E|].
  unfold level_tokens, numeric_tokens in *. rewrite Hp in Hno.
  rewrite tokens_spaces, (tokens_trailing _ _ w') in Hno by done.
  destruct w as [|c w]; [|done]. rewrite Hp in Hb. cbn [app] in Hb.
  destruct (strip post); [done|]. cbn in Hb, Ht. congruence.
Qed.

(** X6: formatting is stable: applied to a text it has returned, the
    function returns the same text and the same level. *)
Theorem formatting_twice (v : pyval) (out : str) (level : option str) :
  clean_and_format_text v = Ok (Some out, level) → out ≠ [] →
  clean_and_format_text (VStr out) = Ok (Some out, level).
Proof.
  intros H Hout.
  apply clean_output in H as [(Hm & -> & ->)|(m & Hm & -> & -> & Hg)].
  - (* the text was passed through *)
    destruct (strip_boundary (py_str v)) as [E|Ht]; [done|].
    rewrite clean_not_found; rewrite ?(strip_tight _ Ht); done.
  - remember (strip (py_str v)) as val eqn:Eval.
    assert (Ht : tight val).
    { destruct (strip_boundary (py_str v)) as [E|Ht]; rewrite <- Eval in *;
        [|done]. rewrite E in Hm. by vm_compute in Hm. }
    clear Eval Hout. unfold level_matches in Hm.
    destruct (finditer level_after_space val) as [|m0 ms] eqn:E1.
    + (* the level ends the text *)
      cbn [nonempty negb] in Hm.
      apply (scan_last_inv _ level_at_end_length) in Hm
        as (k & n & Em & Hp & _).
      apply level_at_end_Some in Hp as (_ & -> & Hd & Hr).
      assert (Hrest : drop (length (m_group1 m)) (drop k val) = []).
      { apply at_dollar_cases in Hr as [Hr|Hr]; [done|]. exfalso.
        destruct Ht as [_ Ht]. rewrite <- (take_drop k val), Hd, Hr in Ht.
        by rewrite !reverse_app in Ht. }
      unfold formatted. rewrite Em. cbn [m_start m_end m_group1].
      rewrite Nat.add_0_l, <- drop_drop, Hrest. cbn.
      rewrite app_nil_r. by apply clean_canonical.
    + (* the level follows whitespace *)
      cbn [nonempty negb] in Hm. rewrite <- E1 in Hm. clear E1.
      apply (scan_last_inv _ level_after_space_length) in Hm
        as (k & n & Em & Hp & Hrest).
      rewrite level_after_space_eq in Hp.
      destruct (ws_span (drop k val)) as [|c w] eqn:Ew; [done|].
      cbn [nonempty] in Hp.
      destruct (token_here (lstrip (drop k val))) as [d|] eqn:Et; [|done].
      cbn in Hp. injection Hp as Hn Hdg. rewrite <- Hdg in *. clear Hdg.
      apply token_here_Some in Et as (_ & Hd & Hb).
      pose proof (ws_span_lstrip (drop k val)) as Hk. rewrite Ew, Hd in Hk.
      remember (drop (length d) (lstrip (drop k val))) as post.
      assert (Hpost : drop (k + n) val = post).
      { rewrite <- drop_drop, <- Hk. rewrite (assoc_L (++)).
        apply drop_app_length'. rewrite length_app. cbn. lia. }
      rewrite Nat.add_0_l, Hpost in Hrest.
      assert (Hno : level_tokens post = []).
      { unfold level_tokens. by rewrite <- (scan_tokens post (k + n)), Hrest. }
      assert (Hx : lstrip (strip (take k val)) ≠ []).
      { destruct Ht as [Ht _]. destruct k as [|k].
        - rewrite drop_0 in Hk. rewrite <- Hk in Ht. cbn in Ht.
          pose proof (ws_span_spaces (drop 0 val)) as Hs. rewrite drop_0 in Ew.
          rewrite drop_0, Ew in Hs. apply Forall_cons in Hs as [Hs _].
          congruence.
        - destruct val as [|a val]; [done|]. cbn in Ht. cbn [take].
          unfold strip. cbn [lstrip]. rewrite Ht, rstrip_cons by done.
          cbn. by rewrite Ht. }
      pose proof (capwords_tight _ Hx) as HC.
      unfold formatted. rewrite Em. cbn [m_start m_end m_group1].
      rewrite !Nat.add_0_l, Hpost.
      remember (capwords (strip (take k val))) as C eqn:EC.
      pose proof (note_without_tokens post Hb Hno) as Hnote.
      pose proof (strip_boundary post) as Hsuf.
      etrans.
      { apply (clean_name_level_post C [newline] d
                 (if nonempty (strip post) then [newline] ++ strip post
                  else [])); try done.
        - by repeat constructor.
        - by destruct (nonempty _).
        - destruct (nonempty _); [|done]. unfold level_tokens.
          by rewrite tokens_spaces by (by repeat constructor).
        - left. rewrite (strip_tight C) by done. by destruct HC, C. }
      rewrite (strip_tight C) by done. rewrite EC, capwords_idemp.
      destruct (strip post) as [|a s] eqn:Es; [done|]. cbn [nonempty].
      destruct Hsuf as [?|Hsuf]; [done|].
      rewrite strip_spaces_app by (by repeat constructor).
      by rewrite (strip_tight _ Hsuf).
Qed.

Lemma formatting_twice_witness :
  clean_and_format_text
    (VStr (lit "The Bfg" ++ [newline] ++ lit "5" ++ [newline]
           ++ lit "(read with me)"))
  = Ok (Some (lit "The Bfg" ++ [newline] ++ lit "5" ++ [newline]
              ++ lit "(read with me)"),
        Some (lit "5")).
Proof.
  apply (formatting_twice (VStr (lit "the BFG  5 (read with me) "))).
  - by vm_compute.
  - done.
Defined.
